(** * The n-step experience replay buffer of chainerrl

    A shallow embedding of
    [chainerrl/replay_buffers/replay_buffer.py] (class [ReplayBuffer]) and
    the properties its specification states about it.

    Reading guide: the specification renames the Python interface.  Its
    [persist] / [restore] are the methods [save] / [load], its
    [force_stop] is the body of [stop_current_episode], its
    [TransitionAccumulator] is one [collections.deque] of the
    [last_n_transitions] dictionary, its [size()] is [__len__], and its
    [InsufficientDataError] is the failure of the [assert] that guards
    [sample]. *)

From stdpp Require Import base option list gmap strings.

(** ** Python values used by the class *)

(** Exceptions the modelled code can raise. *)
Inductive exn :=
  | AssertionError      (* a failed [assert] *)
  | FileNotFoundError   (* [open(filename, 'rb')] on a missing file *)
  | UnpicklingError.    (* [pickle.load] on bytes that are no pickle *)

(** A call either returns a value or raises. *)
Inductive result (A : Type) :=
  | Ok (a : A)
  | Raise (e : exn).
Arguments Ok {A} a.
Arguments Raise {A} e.

#[export] Instance result_ret : MRet result := @Ok.
#[export] Instance result_bind : MBind result := λ A B f m,
  match m with
  | Ok a => f a
  | Raise e => Raise e
  end.

(** The [assert] statement. *)
Definition assert_ (c : bool) : result unit :=
  if c then Ok tt else Raise AssertionError.

(** [collections.deque(..., maxlen=n).append(x)]: the item goes to the
    right end and, when that makes the deque longer than [maxlen], one
    item is dropped from the left end. *)
Definition deque_append {A : Type} (maxlen : nat) (d : list A) (x : A) : list A :=
  let d' := d ++ [x] in
  if decide (maxlen < length d') then drop 1 d' else d'.

(** ** The queue behind [self.memory] *)

Module RandomAccessQueue.
Section queue.
Context {A : Type}.

(** Modelled from the spec: the class [RandomAccessQueue] of
    [chainerrl.misc.collections] is not among the sources.  The
    specification describes it as a FIFO container with a maximum size
    ([None] meaning unbounded) that keeps its items in arrival order;
    the oldest item is first. *)
Record t := mk {
  items : list A;
  maxlen : option nat
}.

(** Modelled from the spec: "oldest [StoredTransition] is evicted first
    when capacity is exceeded by a new append"; dropping from the left
    while the queue is longer than [maxlen]. *)
Definition apply_maxlen (maxlen : option nat) (xs : list A) : list A :=
  match maxlen with
  | None => xs
  | Some m => drop (length xs - m) xs
  end.

(** Modelled from the spec: the constructor
    [RandomAccessQueue(iterable, maxlen=...)], which keeps the order of
    the items it is given ("storage/restoration round-trips preserve
    order"). *)
Definition init (xs : list A) (maxlen : option nat) : t :=
  {| items := apply_maxlen maxlen xs; maxlen := maxlen |}.

(** Modelled from the spec: [append(item)]; the item becomes the newest
    one and "the logically oldest item is discarded" when the queue was
    full; an unbounded queue never evicts. *)
Definition append (q : t) (x : A) : t :=
  let xs := items q ++ [x] in
  {| items := match maxlen q with
              | None => xs
              | Some m => if decide (m < length xs) then drop 1 xs else xs
              end;
     maxlen := maxlen q |}.

(** Modelled from the spec: [length()], the current count. *)
Definition len (q : t) : nat := length (items q).

(** Modelled from the spec: the choice of [k] positions "uniformly at
    random without replacement".  The random source is the list [rng]
    of draws; every draw picks one of the items still in the pool,
    which then leaves the pool. *)
Fixpoint draw (rng : list nat) (pool : list A) (k : nat) : list A :=
  match k with
  | 0 => []
  | S k' =>
      let i := hd 0 rng `mod` length pool in
      match pool !! i with
      | None => []
      | Some x => x :: draw (tl rng) (delete i pool) k'
      end
  end.

(** Modelled from the spec: [sample(k)] "returns [k] items drawn
    uniformly at random without replacement, in arbitrary order".  A
    request for more items than the queue holds never reaches the
    queue: its only caller, [ReplayBuffer.sample], refuses it first. *)
Definition sample (rng : list nat) (q : t) (k : nat) : list A :=
  draw rng (items q) k.
End queue.
Arguments t A : clear implicits.
End RandomAccessQueue.

(** ** The class [ReplayBuffer] *)

Module ReplayBuffer.
Section buffer.
(** Observations, actions, rewards and the values of the extra keyword
    arguments are opaque to the buffer. *)
Context {Obs Act Rew Aux : Type}.

(** The dictionary built by [append] for one environment step. *)
Record experience := mk_experience {
  state : Obs;
  action : Act;
  reward : Rew;
  next_state : option Obs;
  next_action : option Act;
  is_state_terminal : bool;
  kwargs : gmap string Aux
}.

(** What [self.memory.append] receives: [list(last_n_transitions)]. *)
Definition stored : Type := list experience.

(** Other Python values a pickle file can hold. *)
Inductive foreign :=
  | PyNone
  | PyInt (z : Z)
  | PyList (l : list stored).

(** The objects that [pickle.load] can return to [load]. *)
Inductive pyobj :=
  | PyRandomAccessQueue (q : RandomAccessQueue.t stored)
  | PyDeque (d : list stored) (maxlen : option nat)
  | PyOther (o : foreign).

(** The bytes of a file: the pickle of an object, or something else.
    [pickle.load] gives back the object that [pickle.dump] was given,
    which is why a pickle is represented by its object.  The other ways
    in which [open] and [pickle.load] can fail (a directory, a file
    that may not be read, a truncated pickle, a class that cannot be
    imported) are left out: what is proved of [load] is about files
    from which [pickle.load] returns an object. *)
Inductive file :=
  | Pickle (o : pyobj)
  | NotAPickle.

(** The attributes of an instance.  [memory] has the type [M]: a
    [RandomAccessQueue] in every buffer made by [__init__], and whatever
    [pickle.load] returned after [load]. *)
Record obj (M : Type) := mk {
  capacity : option nat;
  num_steps : nat;
  memory : M;
  last_n_transitions : gmap Z (list experience)
}.
Arguments capacity {M} _.
Arguments num_steps {M} _.
Arguments memory {M} _.
Arguments last_n_transitions {M} _.

Definition t : Type := obj (RandomAccessQueue.t stored).

Definition set_memory {M N : Type} (b : obj M) (m : N) : obj N :=
  {| capacity := capacity b; num_steps := num_steps b; memory := m;
     last_n_transitions := last_n_transitions b |}.

Definition set_window {M : Type} (b : obj M) (env_id : Z) (d : list experience) : obj M :=
  {| capacity := capacity b; num_steps := num_steps b; memory := memory b;
     last_n_transitions := <[env_id := d]> (last_n_transitions b) |}.

(** [self.last_n_transitions[env_id]] on the [defaultdict]: a missing
    key stands for a fresh empty deque (which the lookup also stores;
    the operations below write the deque back under [env_id]). *)
Definition window {M : Type} (b : obj M) (env_id : Z) : list experience :=
  default [] (last_n_transitions b !! env_id).

(** [__init__(capacity, num_steps)] *)
Definition init (capacity : option nat) (num_steps : nat) : result t :=
  assert_ (bool_decide (0 < num_steps));;
  mret {| capacity := capacity;
          num_steps := num_steps;
          memory := RandomAccessQueue.init [] capacity;
          last_n_transitions := ∅ |}.

(** [__init__(capacity, num_steps)] for a [num_steps] that is any Python
    [int], as the training scripts pass it from the command line:
    [assert num_steps > 0] is made on the integer, zero or negative, and
    an integer that passes is the [num_steps] of the buffer. *)
Definition init_int (capacity : option nat) (num_steps : Z) : result t :=
  assert_ (bool_decide (0 < num_steps)%Z);;
  init capacity (Z.to_nat num_steps).

(** The loop
    [while last_n_transitions:
         self.memory.append(list(last_n_transitions))
         del last_n_transitions[0]]
    returning the queue and the deque it ends with. *)
Fixpoint flush (memory : RandomAccessQueue.t stored) (d : list experience)
  : RandomAccessQueue.t stored * list experience :=
  match d with
  | [] => (memory, d)
  | _ :: d' => flush (RandomAccessQueue.append memory d) d'
  end.

(** [append(state, action, reward, next_state, next_action,
            is_state_terminal, env_id, **kwargs)] *)
Definition append (b : t) (state : Obs) (action : Act) (reward : Rew)
    (next_state : option Obs) (next_action : option Act)
    (is_state_terminal : bool) (env_id : Z) (kwargs : gmap string Aux)
  : result t :=
  let last_n := window b env_id in
  let experience :=
    {| state := state; action := action; reward := reward;
       next_state := next_state; next_action := next_action;
       is_state_terminal := is_state_terminal; kwargs := kwargs |} in
  let last_n := deque_append (num_steps b) last_n experience in
  if is_state_terminal then
    let '(memory, last_n) := flush (memory b) last_n in
    assert_ (bool_decide (length last_n = 0));;
    mret (set_window (set_memory b memory) env_id last_n)
  else
    if decide (length last_n = num_steps b) then
      mret (set_window
              (set_memory b (RandomAccessQueue.append (memory b) last_n))
              env_id last_n)
    else
      mret (set_window b env_id last_n).

(** [stop_current_episode(env_id)] *)
Definition stop_current_episode (b : t) (env_id : Z) : result t :=
  let last_n := window b env_id in
  let memory :=
    if decide (0 < length last_n < num_steps b)
    then RandomAccessQueue.append (memory b) last_n
    else memory b in
  let last_n :=
    if decide (0 < length last_n ≤ num_steps b)
    then drop 1 last_n
    else last_n in
  let '(memory, last_n) := flush memory last_n in
  assert_ (bool_decide (length last_n = 0));;
  mret (set_window (set_memory b memory) env_id last_n).

(** [sample(num_experiences)]; [rng] is the state of the random
    generator the queue draws from. *)
Definition sample (rng : list nat) (b : t) (num_experiences : nat)
  : result (list stored) :=
  assert_ (bool_decide (num_experiences ≤ RandomAccessQueue.len (memory b)));;
  mret (RandomAccessQueue.sample rng (memory b) num_experiences).

(** [__len__] *)
Definition len (b : t) : nat := RandomAccessQueue.len (memory b).

(** [save(filename)]: the file system maps file names to contents;
    only [self.memory] is dumped. *)
Definition save (b : t) (fs : gmap string file) (filename : string)
  : gmap string file :=
  <[filename := Pickle (PyRandomAccessQueue (memory b))]> fs.

(** [load(filename)]: [self.memory] becomes the unpickled object, and a
    [collections.deque] (the layout of version 0.2) is turned into a
    [RandomAccessQueue] with the same items and [maxlen]. *)
Definition load {M : Type} (b : obj M) (fs : gmap string file) (filename : string)
  : result (obj pyobj) :=
  match fs !! filename with
  | None => Raise FileNotFoundError
  | Some NotAPickle => Raise UnpicklingError
  | Some (Pickle o) =>
      let b := set_memory b o in
      match memory b with
      | PyDeque d maxlen =>
          mret (set_memory b
                  (PyRandomAccessQueue (RandomAccessQueue.init d maxlen)))
      | _ => mret b
      end
  end.
End buffer.
Arguments experience : clear implicits.
Arguments stored : clear implicits.
Arguments foreign : clear implicits.
Arguments pyobj : clear implicits.
Arguments file : clear implicits.
Arguments obj : clear implicits.
Arguments t : clear implicits.
Arguments capacity {Obs Act Rew Aux M} _.
Arguments num_steps {Obs Act Rew Aux M} _.
Arguments memory {Obs Act Rew Aux M} _.
Arguments last_n_transitions {Obs Act Rew Aux M} _.
Arguments mk {Obs Act Rew Aux M} _ _ _ _.
End ReplayBuffer.

(** ** Notions the properties are stated with *)

(** The non-empty suffixes of a window, longest first: the suffix of
    length [length w - i] is [drop i w]. *)
Definition suffixes {A : Type} (w : list A) : list (list A) :=
  (λ i, drop i w) <$> seq 0 (length w).

(** Pushing a list of items into a queue one after the other. *)
Definition push_all {A : Type} (q : RandomAccessQueue.t A) (xs : list A)
  : RandomAccessQueue.t A :=
  foldl RandomAccessQueue.append q xs.

(** A queue respects its bound. *)
Definition bounded {A : Type} (q : RandomAccessQueue.t A) : Prop :=
  match RandomAccessQueue.maxlen q with
  | None => True
  | Some m => length (RandomAccessQueue.items q) ≤ m
  end.


Section notions.
Context {Obs Act Rew Aux : Type}.
Import ReplayBuffer.
#[local] Abbreviation experience := (ReplayBuffer.experience Obs Act Rew Aux).
#[local] Abbreviation stored := (ReplayBuffer.stored Obs Act Rew Aux).
#[local] Abbreviation buffer := (ReplayBuffer.t Obs Act Rew Aux).

(** The result of an operation that pushes [emitted] and leaves the
    deque [w] under [env_id]. *)
Definition after (b : buffer) (emitted : list stored) (env_id : Z)
    (w : list experience) : buffer :=
  set_window (set_memory b (push_all (memory b) emitted)) env_id w.

(** What [append] pushes, and the deque it leaves. *)
Definition append_emits (n : nat) (w0 : list experience) (x : experience)
  : list stored :=
  let w := deque_append n w0 x in
  if is_state_terminal x then suffixes w
  else if decide (length w = n) then [w] else [].

Definition append_window (n : nat) (w0 : list experience) (x : experience)
  : list experience :=
  if is_state_terminal x then [] else deque_append n w0 x.

(** What [stop_current_episode] pushes. *)
Definition stop_emits (n : nat) (w : list experience) : list stored :=
  if decide (0 < length w < n) then suffixes w
  else if decide (0 < length w ≤ n) then suffixes (drop 1 w)
  else suffixes w.

(** The calls the training loop makes on a buffer: [append] with the
    fields of one experience, and [stop_current_episode]. *)
Inductive op :=
  | Append (x : experience) (env_id : Z)
  | Stop (env_id : Z).

Definition append_exp (b : buffer) (x : experience) (env_id : Z) : result buffer :=
  append b (state x) (action x) (reward x) (next_state x) (next_action x)
    (is_state_terminal x) env_id (kwargs x).

Definition step (b : buffer) (o : op) : result buffer :=
  match o with
  | Append x env_id => append_exp b x env_id
  | Stop env_id => stop_current_episode b env_id
  end.

Definition op_env (o : op) : Z :=
  match o with Append _ env_id | Stop env_id => env_id end.

(** What one call pushes and the deque it leaves, given the deque [w0]
    it finds. *)
Definition step_emits (n : nat) (w0 : list experience) (o : op) : list stored :=
  match o with
  | Append x _ => append_emits n w0 x
  | Stop _ => stop_emits n w0
  end.

Definition step_window (n : nat) (w0 : list experience) (o : op) : list experience :=
  match o with
  | Append x _ => append_window n w0 x
  | Stop _ => []
  end.

Fixpoint run (b : buffer) (ops : list op) : result buffer :=
  match ops with
  | [] => Ok b
  | o :: ops => b' ← step b o; run b' ops
  end.

(** The experiences a sequence of calls hands to [append], in order. *)
Definition appended (ops : list op) : list experience :=
  ops ≫= λ o, match o with Append x _ => [x] | Stop _ => [] end.

(** The experiences of a window that are not yet the oldest element of
    a pushed transition: all of them while the window is short, all but
    the first once it is full. *)
Definition pending_of (n : nat) (w : list experience) : list experience :=
  if decide (length w < n) then w else drop 1 w.

Definition pending (b : buffer) : list experience :=
  map_to_list (last_n_transitions b) ≫= λ kw, pending_of (num_steps b) kw.2.

(** No experience occurs in two of the stored transitions of a queue. *)
Definition in_at_most_one (q : list stored) : Prop :=
  ∀ x i j s1 s2,
    q !! i = Some s1 → q !! j = Some s2 → x ∈ s1 → x ∈ s2 → i = j.

(** [u] is [b] without the bound on the queue: the queue of [b] holds
    the newest items of the queue of [u]. *)
Definition newest_of (cap : option nat) (b u : buffer) : Prop :=
  num_steps b = num_steps u
  ∧ last_n_transitions b = last_n_transitions u
  ∧ RandomAccessQueue.maxlen (memory b) = cap
  ∧ bounded (memory b)
  ∧ RandomAccessQueue.maxlen (memory u) = None
  ∧ RandomAccessQueue.items (memory b)
    = RandomAccessQueue.apply_maxlen cap (RandomAccessQueue.items (memory u)).

(** Every window respects the bound of its deque. *)
Definition windows_bounded (b : buffer) : Prop :=
  ∀ env_id, length (window b env_id) ≤ num_steps b.

(** The calls of [append] for the steps [xs] of one environment. *)
Definition appends (env_id : Z) (xs : list experience) : list op :=
  (λ x, Append x env_id) <$> xs.

(** The windows of at most [n] consecutive steps of an episode [xs],
    one starting at every step. *)
Definition sliding_windows (n : nat) (xs : list experience) : list stored :=
  (λ j, take n (drop j xs)) <$> seq 0 (length xs).

(** Those of the windows that are complete, [n] steps long. *)
Definition full_windows (n : nat) (xs : list experience) : list stored :=
  (λ j, take n (drop j xs)) <$> seq 0 (length xs + 1 - n).

(** Only the last experience of a stored transition may be terminal. *)
Definition terminal_only_last (s : stored) : Prop :=
  Forall (λ x, is_state_terminal x = false) (take (length s - 1) s).

End notions.
Arguments op : clear implicits.

(** ** Concrete values for the examples *)

Module Example.
Import ReplayBuffer.

(** Three steps of one episode; only the last one is terminal. *)
Definition x1 : experience nat nat Z Z := mk_experience 10 1 0%Z (Some 11) None false ∅.
Definition x2 : experience nat nat Z Z := mk_experience 11 0 1%Z (Some 12) None false ∅.
Definition x3 : experience nat nat Z Z := mk_experience 12 1 5%Z None None true ∅.

(** A buffer as [__init__(capacity, num_steps)] makes it. *)
Definition fresh (capacity : option nat) (num_steps : nat) : t nat nat Z Z :=
  mk capacity num_steps (RandomAccessQueue.init [] capacity) ∅.

(** A buffer with [num_steps = 2] whose deque for environment 0 holds
    [w]. *)
Definition holding (w : list (experience nat nat Z Z)) : t nat nat Z Z :=
  mk None 2 (RandomAccessQueue.init [] None) {[ 0%Z := w ]}.

(** A file system with one file, and the name of that file. *)
Definition filename : string := "replay.pkl".
Definition disk (f : file nat nat Z Z) : gmap string (file nat nat Z Z) :=
  {[ filename := f ]}.
End Example.

(** ** The environment wrappers of [baselines/env_wrappers.py] *)

Module EnvWrappers.

(** Exceptions raised by the wrappers modelled here. *)
Inductive exn :=
  | UnboundLocalError   (* a local variable read before any assignment *)
  | ValueError
  | KeyError            (* a missing key of a dictionary *)
  | AttributeError      (* [space.n] on a space that is no [Discrete] *)
  | IndexError          (* a list index out of range *)
  | TypeError.          (* a list index that is no integer *)

Inductive res (A : Type) :=
  | Return (a : A)
  | Throw (e : exn).
Arguments Return {A} a.
Arguments Throw {A} e.

#[export] Instance res_ret : MRet res := @Return.
#[export] Instance res_bind : MBind res := λ A B f m,
  match m with
  | Return a => f a
  | Throw e => Throw e
  end.

(** *** [FrameSkip] *)

Section frame_skip.
(** The wrapped environment: its hidden state, and what [self.env.step]
    returns, namely [(obs, reward, done, info)].  Rewards are added with
    [+], starting from [0.0]; nothing is assumed of that addition. *)
Context {St Action Ob Rw Info : Type}.
Context (env_step : St → Action → St * (Ob * Rw * bool * Info)).
Context (zero : Rw) (add : Rw → Rw → Rw).

(** The loop of [step],
    [for _ in range(self._skip):
         obs, reward, done, info = self.env.step(action)
         total_reward += reward
         if done: break],
    run for [k] more rounds.  [bound] holds the values of [obs], [done]
    and [info] once they are assigned. *)
Fixpoint skip_loop (k : nat) (s : St) (action : Action) (total_reward : Rw)
    (bound : option (Ob * bool * Info)) : St * Rw * option (Ob * bool * Info) :=
  match k with
  | 0 => (s, total_reward, bound)
  | S k =>
      let '(s, (obs, reward, done, info)) := env_step s action in
      let total_reward := add total_reward reward in
      if done then (s, total_reward, Some (obs, done, info))
      else skip_loop k s action total_reward (Some (obs, done, info))
  end.

(** [FrameSkip.step(action)] with [self._skip = skip]. *)
Definition frame_skip_step (skip : Z) (s : St) (action : Action)
  : res (St * (Ob * Rw * bool * Info)) :=
  match skip_loop (Z.to_nat skip) s action zero None with
  | (s, total_reward, Some (obs, done, info)) =>
      Return (s, (obs, total_reward, done, info))
  | (_, _, None) => Throw UnboundLocalError
  end.

(** What the environment returns on [k] steps with the same action, and
    the state it is in afterwards. *)
Fixpoint env_steps (k : nat) (s : St) (action : Action)
  : St * list (Ob * Rw * bool * Info) :=
  match k with
  | 0 => (s, [])
  | S k =>
      let '(s, r) := env_step s action in
      let '(s, rs) := env_steps k s action in
      (s, r :: rs)
  end.

Definition reward_of (r : Ob * Rw * bool * Info) : Rw := r.1.1.2.
Definition done_of (r : Ob * Rw * bool * Info) : bool := r.1.2.
End frame_skip.

(** *** [SerialDiscreteCombineActionWrapper] *)

(** The spaces of the wrapped [Dict] action space that matter here. *)
Inductive space :=
  | Discrete (n : Z)
  | Box.

(** The values of an action dictionary: an integer, or the camera
    array [np.array([pitch, yaw], dtype=np.float32)] with the integral
    entries the code writes. *)
Inductive value :=
  | Int (z : Z)
  | Camera (pitch yaw : Z).

#[export] Instance value_eq_dec : EqDecision value.
Proof. solve_decision. Defined.

(** An [OrderedDict] from action names to values. *)
Abbreviation odict := (list (string * value)).

(** [d[k] = v] on an [OrderedDict]: an existing key keeps its place, a
    new key goes to the end. *)
Fixpoint od_set (d : odict) (k : string) (v : value) : odict :=
  match d with
  | [] => [(k, v)]
  | (k', v') :: d' =>
      if decide (k' = k) then (k, v) :: d' else (k', v') :: od_set d' k v
  end.

(** [self.noop] *)
Definition noop : odict :=
  [ ("forward_back", Int 0);
    ("left_right", Int 0);
    ("jump", Int 0);
    ("sneak_sprint", Int 0);
    ("camera", Camera 0 0);
    ("attack_place_equip_craft_nearbyCraft_nearbySmelt", Int 0) ].

(** The body of the loop [for key in self.noop]: the actions that one
    key contributes.  [spaces] is [self.wrapping_action_space.spaces]. *)
Definition key_actions (spaces : gmap string space) (key : string)
  : res (list odict) :=
  if decide (key = "camera") then
    Return [ od_set noop key (Camera 0 (-10)); od_set noop key (Camera 0 10) ]
  else
    match spaces !! key with
    | None => Throw KeyError
    | Some Box => Throw AttributeError
    | Some (Discrete n) =>
        Return ((λ a, od_set noop key (Int a)) <$> seqZ 1 (n - 1))
    end.

(** The loop over the keys, extending [self._actions]. *)
Fixpoint build_actions (spaces : gmap string space) (keys : list string)
    (actions : list odict) : res (list odict) :=
  match keys with
  | [] => Return actions
  | key :: keys =>
      ops ← key_actions spaces key;
      build_actions spaces keys (actions ++ ops)
  end.

(** The attributes set by [__init__]: [self._actions], and the [n] of
    [self.action_space = Discrete(n)]. *)
Record serial := mk_serial {
  _actions : list odict;
  action_space_n : Z
}.

(** [SerialDiscreteCombineActionWrapper.__init__] *)
Definition serial_init (spaces : gmap string space) : res serial :=
  actions ← build_actions spaces noop.*1 [noop];
  mret (mk_serial actions (Z.of_nat (length actions))).

(** [action(action)]: [Discrete(n).contains] accepts the integers from
    [0] to [n - 1]. *)
Definition serial_action (w : serial) (action : Z) : res odict :=
  if decide (0 ≤ action < action_space_n w)%Z then
    match _actions w !! Z.to_nat action with
    | Some original_space_action => Return original_space_action
    | None => Throw IndexError
    end
  else Throw ValueError.

(** The entries of an action that are not at rest: an integer other
    than 0, or a camera array other than [[0, 0]]. *)
Definition pressed (d : odict) : list (string * value) :=
  filter (λ kv, kv.2 ≠ Int 0 ∧ kv.2 ≠ Camera 0 0) d.

(** The actions that set the one key [key] to 1, ..., [n - 1]. *)
Definition one_key (key : string) (n : Z) : list odict :=
  (λ a, od_set noop key (Int a)) <$> seqZ 1 (n - 1).

(** The list of actions for a wrapped space whose five discrete keys
    have the sizes [n1], ..., [n5]. *)
Definition serial_actions (n1 n2 n3 n4 n5 : Z) : list odict :=
  [noop]
  ++ one_key "forward_back" n1
  ++ one_key "left_right" n2
  ++ one_key "jump" n3
  ++ one_key "sneak_sprint" n4
  ++ [ od_set noop "camera" (Camera 0 (-10)); od_set noop "camera" (Camera 0 10) ]
  ++ one_key "attack_place_equip_craft_nearbyCraft_nearbySmelt" n5.

(** *** [SerialDiscreteActionWrapper] *)

(** [d[k]] and [del d[k]] on an [OrderedDict]. *)
Fixpoint od_get (d : odict) (k : string) : option value :=
  match d with
  | [] => None
  | (k', v) :: d' => if decide (k' = k) then Some v else od_get d' k
  end.

Definition od_del (d : odict) (k : string) : odict :=
  filter (λ kv, kv.1 ≠ k) d.

Definition BINARY_KEYS : list string :=
  [ "forward"; "back"; "left"; "right"; "jump"; "sneak"; "sprint"; "attack" ].

(** [self._noop_template] *)
Definition _noop_template : odict :=
  [ ("forward", Int 0); ("back", Int 0); ("left", Int 0); ("right", Int 0);
    ("jump", Int 0); ("sneak", Int 0); ("sprint", Int 0); ("attack", Int 0);
    ("camera", Camera 0 0);
    ("place", Int 0); ("equip", Int 0); ("craft", Int 0);
    ("nearbyCraft", Int 0); ("nearbySmelt", Int 0) ].

(** The loop
    [for key in self._noop_template:
         if key not in self.wrapping_action_space.spaces:
             del self.noop[key]] *)
Fixpoint drop_missing (spaces : gmap string space) (keys : list string)
    (noop : odict) : odict :=
  match keys with
  | [] => noop
  | key :: keys =>
      match spaces !! key with
      | None => drop_missing spaces keys (od_del noop key)
      | Some _ => drop_missing spaces keys noop
      end
  end.

(** The loops over [always_keys] and [reverse_keys]:
    [for key in keys:
         if key not in self.BINARY_KEYS: raise ValueError(...)
         self.noop[key] = 1] *)
Fixpoint press_keys (keys : list string) (noop : odict) : res odict :=
  match keys with
  | [] => Return noop
  | key :: keys =>
      if decide (key ∈ BINARY_KEYS)
      then press_keys keys (od_set noop key (Int 1))
      else Throw ValueError
  end.

(** The body of the loop [for key in self.noop] that collects the
    discrete actions. *)
Definition discrete_key_actions (spaces : gmap string space)
    (always_keys reverse_keys exclude_keys : list string) (noop : odict)
    (key : string) : res (list odict) :=
  if decide (key ∈ always_keys ∨ key ∈ exclude_keys) then Return []
  else if decide (key ∈ BINARY_KEYS) then
    Return [ od_set noop key (if decide (key ∈ reverse_keys) then Int 0 else Int 1) ]
  else if decide (key = "camera") then
    Return [ od_set noop key (Camera 0 (-10)); od_set noop key (Camera 0 10) ]
  else if decide (key ∈ ["place"; "equip"; "craft"; "nearbyCraft"; "nearbySmelt"])
  then
    match spaces !! key with
    | None => Throw KeyError
    | Some Box => Throw AttributeError
    | Some (Discrete n) =>
        Return ((λ a, od_set noop key (Int a)) <$> seqZ 1 (n - 1))
    end
  else Return [].

Fixpoint discrete_build (spaces : gmap string space)
    (always_keys reverse_keys exclude_keys : list string) (noop : odict)
    (keys : list string) (actions : list odict) : res (list odict) :=
  match keys with
  | [] => Return actions
  | key :: keys =>
      ops ← discrete_key_actions spaces always_keys reverse_keys exclude_keys
              noop key;
      discrete_build spaces always_keys reverse_keys exclude_keys noop keys
        (actions ++ ops)
  end.

(** The attributes set by [SerialDiscreteActionWrapper.__init__]. *)
Record discrete := mk_discrete {
  always_keys : list string;
  reverse_keys : list string;
  exclude_keys : list string;
  exclude_noop : bool;
  d_noop : odict;
  d_actions : list odict;
  d_action_space_n : Z
}.

(** [SerialDiscreteActionWrapper.__init__(env, always_keys, reverse_keys,
    exclude_keys, exclude_noop)]; [None] stands for a key list that is
    not given. *)
Definition discrete_init (spaces : gmap string space)
    (always_keys reverse_keys exclude_keys : option (list string))
    (exclude_noop : bool) : res discrete :=
  let always_keys := default [] always_keys in
  let reverse_keys := default [] reverse_keys in
  let exclude_keys := default [] exclude_keys in
  if decide (size (list_to_set always_keys ∪ list_to_set reverse_keys
                   ∪ list_to_set exclude_keys : gset string)
             ≠ length always_keys + length reverse_keys + length exclude_keys)
  then Throw ValueError
  else if decide (dom spaces ⊆ list_to_set _noop_template.*1) then
    let noop := drop_missing spaces _noop_template.*1 _noop_template in
    noop ← press_keys always_keys noop;
    noop ← press_keys reverse_keys noop;
    if decide (Forall (λ key, key ∈ noop.*1) exclude_keys) then
      actions ← discrete_build spaces always_keys reverse_keys exclude_keys
                  noop noop.*1 [noop];
      let actions := if exclude_noop then drop 1 actions else actions in
      mret (mk_discrete always_keys reverse_keys exclude_keys exclude_noop
              noop actions (Z.of_nat (length actions)))
    else Throw ValueError
  else Throw ValueError.

(** [action(action)] *)
Definition discrete_action (w : discrete) (action : Z) : res odict :=
  if decide (0 ≤ action < d_action_space_n w)%Z then
    match d_actions w !! Z.to_nat action with
    | Some original_space_action => Return original_space_action
    | None => Throw IndexError
    end
  else Throw ValueError.

(** *** [CombineActionWrapper] *)

(** [l[i]] on a Python list: a negative index counts from the end. *)
Definition py_index {A : Type} (l : list A) (i : Z) : option A :=
  if decide (0 ≤ i)%Z then l !! Z.to_nat i
  else if decide (0 ≤ Z.of_nat (length l) + i)%Z
       then l !! Z.to_nat (Z.of_nat (length l) + i)
       else None.

(** [d.update(a)] for a dictionary [a]. *)
Definition od_update (d a : odict) : odict :=
  foldl (λ d kv, od_set d kv.1 kv.2) d a.

(** The loop of [combine_exclusive_actions],
    [for key in valid_action_keys:
         space = self.wrapping_action_space.spaces[key]
         for i in range(1, space.n):
             op = copy.deepcopy(noop); op[key] = i
             new_actions.append(op)] *)
Fixpoint combine_loop (spaces : gmap string space) (noop : odict)
    (keys : list string) (new_actions : list odict) : res (list odict) :=
  match keys with
  | [] => Return new_actions
  | key :: keys =>
      match spaces !! key with
      | None => Throw KeyError
      | Some Box => Throw AttributeError
      | Some (Discrete n) =>
          combine_loop spaces noop keys
            (new_actions ++ ((λ i, od_set noop key (Int i)) <$> seqZ 1 (n - 1)))
      end
  end.

(** The local function [combine_exclusive_actions(keys)] of
    [CombineActionWrapper.__init__]. *)
Definition combine_exclusive_actions (spaces : gmap string space)
    (keys : list string) : res (string * list odict) :=
  let new_key := String.concat "_" keys in
  let valid_action_keys := filter (λ k, is_Some (spaces !! k)) keys in
  let noop := foldl (λ d a, od_set d a (Int 0)) [] valid_action_keys in
  new_actions ← combine_loop spaces noop valid_action_keys [noop];
  mret (new_key, new_actions).

(** The groups of keys that [__init__] combines. *)
Definition exclusive_keys : list (list string) :=
  [ ["forward"; "back"]; ["left"; "right"]; ["sneak"; "sprint"];
    ["attack"; "place"; "equip"; "craft"; "nearbyCraft"; "nearbySmelt"] ].

(** The loop that fills [self._maps]. *)
Fixpoint combine_maps (spaces : gmap string space) (groups : list (list string))
    (maps : gmap string (list odict)) : res (gmap string (list odict)) :=
  match groups with
  | [] => Return maps
  | keys :: groups =>
      r ← combine_exclusive_actions spaces keys;
      combine_maps spaces groups (<[r.1 := r.2]> maps)
  end.

(** The attributes set by [CombineActionWrapper.__init__]:
    [self._maps], and the spaces of [self.action_space]. *)
Record combine := mk_combine {
  c_maps : gmap string (list odict);
  c_action_space : list (string * space)
}.

(** [gym.spaces.Discrete(len(self._maps[k]))] and
    [self.wrapping_action_space.spaces[k]] *)
Definition discrete_of (maps : gmap string (list odict)) (k : string) : res space :=
  match maps !! k with
  | Some new_actions => Return (Discrete (Z.of_nat (length new_actions)))
  | None => Throw KeyError
  end.

Definition space_of (spaces : gmap string space) (k : string) : res space :=
  match spaces !! k with
  | Some sp => Return sp
  | None => Throw KeyError
  end.

(** [CombineActionWrapper.__init__] *)
Definition combine_init (spaces : gmap string space) : res combine :=
  maps ← combine_maps spaces exclusive_keys ∅;
  forward_back ← discrete_of maps "forward_back";
  left_right ← discrete_of maps "left_right";
  jump ← space_of spaces "jump";
  sneak_sprint ← discrete_of maps "sneak_sprint";
  camera ← space_of spaces "camera";
  attack ← discrete_of maps "attack_place_equip_craft_nearbyCraft_nearbySmelt";
  mret (mk_combine maps
          [ ("forward_back", forward_back);
            ("left_right", left_right);
            ("jump", jump);
            ("sneak_sprint", sneak_sprint);
            ("camera", camera);
            ("attack_place_equip_craft_nearbyCraft_nearbySmelt", attack) ]).

(** [space.contains(v)]: a [Discrete(n)] contains the integers from 0 to
    [n - 1]; what a [Box] contains is given by [box_contains]. *)
Definition space_contains (box_contains : value → bool) (sp : space) (v : value)
  : bool :=
  match sp, v with
  | Discrete n, Int z => bool_decide (0 ≤ z < n)%Z
  | Discrete _, Camera _ _ => false
  | Box, v => box_contains v
  end.

(** [Dict.contains(x)]: [x] has as many entries as the space has keys,
    and holds under every key of the space a value of its space. *)
Definition dict_contains (box_contains : value → bool)
    (sp : list (string * space)) (x : odict) : bool :=
  bool_decide (length x = length sp)
  && forallb (λ ks, match od_get x ks.1 with
                    | None => false
                    | Some v => space_contains box_contains ks.2 v
                    end) sp.

(** The loop of [action],
    [for k, v in action.items():
         if k in self._maps:
             a = self._maps[k][v]
             original_space_action.update(a)
         else:
             original_space_action[k] = v] *)
Fixpoint combine_items (maps : gmap string (list odict)) (items : odict)
    (original_space_action : odict) : res odict :=
  match items with
  | [] => Return original_space_action
  | (k, v) :: items =>
      match maps !! k with
      | Some new_actions =>
          match v with
          | Int z =>
              match py_index new_actions z with
              | Some a =>
                  combine_items maps items (od_update original_space_action a)
              | None => Throw IndexError
              end
          | Camera _ _ => Throw TypeError
          end
      | None => combine_items maps items (od_set original_space_action k v)
      end
  end.

(** [CombineActionWrapper.action(action)] *)
Definition combine_action (box_contains : value → bool) (w : combine)
    (action : odict) : res odict :=
  if dict_contains box_contains (c_action_space w) action
  then combine_items (c_maps w) action []
  else Throw ValueError.

(** A key is at rest in an action: absent, or 0. *)
Definition at_rest (d : odict) (k : string) : Prop :=
  od_get d k = None ∨ od_get d k = Some (Int 0).

(** What holds of every action of one group: it has the keys [ks], and
    of two different keys one is at rest. *)
Definition exclusive_action (ks : list string) (act : odict) : Prop :=
  act.*1 = ks ∧ ∀ k1 k2, k1 ≠ k2 → at_rest act k1 ∨ at_rest act k2.

(** What holds of the actions [acts] made for the group [g]: they share
    their keys, which are keys of the group, none twice. *)
Definition group_actions (g : list string) (acts : list odict) : Prop :=
  0 < length acts
  ∧ ∃ ks, NoDup ks ∧ (∀ k, k ∈ ks → k ∈ g) ∧ Forall (exclusive_action ks) acts.

(** How far [action] has filled the keys of the group [g]: not at all,
    or with the values of one of the group's actions. *)
Definition group_state (g : list string) (acts : list odict) (d : odict) : Prop :=
  (∀ k, k ∈ g → od_get d k = None)
  ∨ (∃ act, act ∈ acts ∧ ∀ k, k ∈ g → od_get d k = od_get act k).

(** [self._maps] as a function of the four lists of actions. *)
Definition maps_of (a1 a2 a3 a4 : list odict) : gmap string (list odict) :=
  <["attack_place_equip_craft_nearbyCraft_nearbySmelt" := a4]>
    (<["sneak_sprint" := a3]>
       (<["left_right" := a2]> (<["forward_back" := a1]> ∅))).

(** The state of all four groups. *)
Definition groups_state (a1 a2 a3 a4 : list odict) (d : odict) : Prop :=
  group_state ["forward"; "back"] a1 d
  ∧ group_state ["left"; "right"] a2 d
  ∧ group_state ["sneak"; "sprint"] a3 d
  ∧ group_state
      ["attack"; "place"; "equip"; "craft"; "nearbyCraft"; "nearbySmelt"] a4 d.

(** What these actions press, the first one ([noop]) apart. *)
Definition serial_pressed (n1 n2 n3 n4 n5 : Z) : list (list (string * value)) :=
  ((λ a, [("forward_back", Int a)]) <$> seqZ 1 (n1 - 1))
  ++ ((λ a, [("left_right", Int a)]) <$> seqZ 1 (n2 - 1))
  ++ ((λ a, [("jump", Int a)]) <$> seqZ 1 (n3 - 1))
  ++ ((λ a, [("sneak_sprint", Int a)]) <$> seqZ 1 (n4 - 1))
  ++ [ [("camera", Camera 0 (-10))]; [("camera", Camera 0 10)] ]
  ++ ((λ a, [("attack_place_equip_craft_nearbyCraft_nearbySmelt", Int a)])
        <$> seqZ 1 (n5 - 1)).
End EnvWrappers.

(** ** Concrete values for the wrappers *)

Module WrapperExample.

(** An environment that counts its steps: every step gives the reward
    1, and the third step ends the episode. *)
Definition counter_step (s : nat) (_ : unit) : nat * (nat * Z * bool * unit) :=
  (S s, (S s, 1%Z, bool_decide (3 ≤ S s), ())).

(** The action space that [CombineActionWrapper] hands to
    [SerialDiscreteCombineActionWrapper]. *)
Definition combined_spaces : gmap string EnvWrappers.space :=
  list_to_map
    [ ("forward_back", EnvWrappers.Discrete 3);
      ("left_right", EnvWrappers.Discrete 3);
      ("jump", EnvWrappers.Discrete 2);
      ("sneak_sprint", EnvWrappers.Discrete 3);
      ("camera", EnvWrappers.Box);
      ("attack_place_equip_craft_nearbyCraft_nearbySmelt",
       EnvWrappers.Discrete 2) ].

(** The action space of a tree-chopping environment: the eight binary
    keys and the camera. *)
Definition treechop_spaces : gmap string EnvWrappers.space :=
  list_to_map
    [ ("forward", EnvWrappers.Discrete 2); ("back", EnvWrappers.Discrete 2);
      ("left", EnvWrappers.Discrete 2); ("right", EnvWrappers.Discrete 2);
      ("jump", EnvWrappers.Discrete 2); ("sneak", EnvWrappers.Discrete 2);
      ("sprint", EnvWrappers.Discrete 2); ("attack", EnvWrappers.Discrete 2);
      ("camera", EnvWrappers.Box) ].
End WrapperExample.

(** ** The bounded queue *)

Section queue_facts.
Context {A : Type}.
Implicit Types (q : RandomAccessQueue.t A) (x : A) (xs : list A).

Import RandomAccessQueue.

Lemma maxlen_append q x : maxlen (append q x) = maxlen q.
Proof. reflexivity. Qed.

Lemma maxlen_push_all q xs : maxlen (push_all q xs) = maxlen q.
Proof.
  revert q. induction xs as [|x xs IH]; intros q; [done|].
  unfold push_all in *. simpl. by rewrite IH.
Qed.

Lemma push_all_app q xs ys : push_all q (xs ++ ys) = push_all (push_all q xs) ys.
Proof. unfold push_all. apply foldl_app. Qed.

Lemma items_append_unbounded q x :
  maxlen q = None → items (append q x) = items q ++ [x].
Proof. intros H. unfold append. simpl. by rewrite H. Qed.

Lemma items_append_room q x m :
  maxlen q = Some m → length (items q) < m → items (append q x) = items q ++ [x].
Proof.
  intros H Hlt. unfold append. simpl. rewrite H.
  rewrite length_app. simpl. case_decide; [lia|done].
Qed.

Lemma items_append_full q x m :
  maxlen q = Some m → length (items q) = m →
  items (append q x) = drop 1 (items q ++ [x]).
Proof.
  intros H Hlen. unfold append. simpl. rewrite H.
  rewrite length_app. simpl. case_decide; [done|lia].
Qed.

(** The wording of the queue's contract: at [size = capacity] with at
    least one item, the oldest item leaves and the new one enters. *)
Lemma items_append_full_nonempty q x m :
  maxlen q = Some m → length (items q) = m → 0 < m →
  items (append q x) = drop 1 (items q) ++ [x].
Proof.
  intros H Hlen Hm. rewrite (items_append_full q x m) by done.
  destruct (items q); [simpl in *; lia|done].
Qed.

Lemma bounded_init xs m : bounded (init xs m).
Proof.
  unfold bounded, init, apply_maxlen. simpl. destruct m as [m|]; [|done].
  rewrite length_drop. lia.
Qed.

Lemma bounded_append q x : bounded q → bounded (append q x).
Proof.
  unfold bounded, append. simpl. destruct (maxlen q) as [m|]; [|done].
  intros H. case_decide; rewrite ?length_drop, ?length_app in *; simpl in *; lia.
Qed.

Lemma bounded_push_all q xs : bounded q → bounded (push_all q xs).
Proof.
  revert q. induction xs as [|x xs IH]; intros q H; [done|].
  apply IH. by apply bounded_append.
Qed.

(** On a queue that respects its bound, [append] keeps the newest
    [maxlen] of the old items and the new one. *)
Lemma items_append q x :
  bounded q → items (append q x) = apply_maxlen (maxlen q) (items q ++ [x]).
Proof.
  unfold bounded, append, apply_maxlen. simpl.
  destruct (maxlen q) as [m|]; [|done].
  intros H. rewrite length_app. simpl. case_decide.
  - by replace (length (items q) + 1 - m) with 1 by lia.
  - by replace (length (items q) + 1 - m) with 0 by lia.
Qed.

Lemma apply_maxlen_app m xs ys :
  apply_maxlen m (apply_maxlen m xs ++ ys) = apply_maxlen m (xs ++ ys).
Proof.
  destruct m as [m|]; [|done]. simpl.
  rewrite !drop_app, drop_drop, !length_app, !length_drop.
  f_equal; f_equal; lia.
Qed.

Lemma items_push_all q xs :
  bounded q → items (push_all q xs) = apply_maxlen (maxlen q) (items q ++ xs).
Proof.
  revert q. induction xs as [|x xs IH]; intros q H.
  - simpl. rewrite app_nil_r. unfold bounded, apply_maxlen in *.
    destruct (maxlen q) as [m|]; [|done].
    by replace (length (items q) - m) with 0 by lia.
  - change (push_all q (x :: xs)) with (push_all (append q x) xs).
    rewrite IH by by apply bounded_append.
    rewrite items_append, maxlen_append by done.
    by rewrite apply_maxlen_app, <- app_assoc.
Qed.

Lemma length_apply_maxlen_some m xs :
  length (apply_maxlen (Some m) xs) = length xs `min` m.
Proof. simpl. rewrite length_drop. lia. Qed.

End queue_facts.

(** ** Windows and their suffixes *)

Section suffix_facts.
Context {A : Type}.
Implicit Types (x : A) (w : list A).

Lemma suffixes_nil : suffixes (@nil A) = [].
Proof. reflexivity. Qed.

Lemma suffixes_cons x w : suffixes (x :: w) = (x :: w) :: suffixes w.
Proof.
  unfold suffixes. simpl. f_equal.
  rewrite <- fmap_S_seq, <- list_fmap_compose. done.
Qed.

Lemma length_suffixes w : length (suffixes w) = length w.
Proof. unfold suffixes. by rewrite length_fmap, length_seq. Qed.

Lemma suffixes_lookup w i :
  i < length w → suffixes w !! i = Some (drop i w).
Proof.
  intros Hi. unfold suffixes. rewrite list_lookup_fmap.
  by rewrite lookup_seq_lt.
Qed.

(** The suffixes have the lengths [L, L-1, ..., 1]. *)
Lemma lengths_suffixes w :
  length <$> suffixes w = reverse (seq 1 (length w)).
Proof.
  induction w as [|x w IH]; [done|].
  rewrite suffixes_cons, fmap_cons, IH.
  change (length (x :: w)) with (S (length w)).
  rewrite seq_S, reverse_app. done.
Qed.

(** Every element of the window is the first element of exactly one
    suffix. *)
Lemma heads_suffixes w : omap head (suffixes w) = w.
Proof.
  induction w as [|x w IH]; [done|].
  rewrite suffixes_cons.
  change (omap head ((x :: w) :: suffixes w)) with (x :: omap head (suffixes w)).
  by rewrite IH.
Qed.

Lemma suffixes_shorter w s : s ∈ suffixes (drop 1 w) → length s < length w.
Proof.
  intros Hs. apply list_elem_of_lookup in Hs as [i Hi].
  assert (i < length (drop 1 w)) as Hlt.
  { rewrite <- length_suffixes. by eapply lookup_lt_Some. }
  rewrite suffixes_lookup in Hi by done. injection Hi as <-.
  rewrite !length_drop. rewrite length_drop in Hlt. lia.
Qed.

Lemma length_deque_append n w x :
  length w ≤ n → 0 < n →
  1 ≤ length (deque_append n w x) ≤ n.
Proof.
  intros Hw Hn. unfold deque_append.
  case_decide; rewrite ?length_drop, length_app in *; simpl in *; lia.
Qed.

Lemma deque_append_room n w x :
  length w < n → deque_append n w x = w ++ [x].
Proof.
  intros Hw. unfold deque_append. rewrite length_app. simpl.
  case_decide; [lia|done].
Qed.

Lemma deque_append_full n w x :
  length w = n → deque_append n w x = drop 1 (w ++ [x]).
Proof.
  intros Hw. unfold deque_append. rewrite length_app. simpl.
  case_decide; [done|lia].
Qed.
End suffix_facts.

(** ** The operations of the buffer, in terms of what they push *)

Section buffer_facts.
Context {Obs Act Rew Aux : Type}.
Import ReplayBuffer.
#[local] Abbreviation experience := (ReplayBuffer.experience Obs Act Rew Aux).
#[local] Abbreviation stored := (ReplayBuffer.stored Obs Act Rew Aux).
#[local] Abbreviation buffer := (ReplayBuffer.t Obs Act Rew Aux).
Implicit Types (b : buffer) (x : experience) (w : list experience)
  (q : RandomAccessQueue.t stored) (env_id : Z).

Lemma flush_spec q w : flush q w = (push_all q (suffixes w), []).
Proof.
  revert q. induction w as [|x w IH]; intros q; [done|].
  rewrite suffixes_cons. cbn [flush]. by rewrite IH.
Qed.

Lemma window_after b emitted env_id w :
  window (after b emitted env_id w) env_id = w.
Proof. unfold window, after. simpl. by rewrite lookup_insert_eq. Qed.

Lemma window_after_ne b emitted env_id env_id' w :
  env_id ≠ env_id' →
  window (after b emitted env_id w) env_id' = window b env_id'.
Proof. intros H. unfold window, after. simpl. by rewrite lookup_insert_ne. Qed.

Lemma memory_after b emitted env_id w :
  memory (after b emitted env_id w) = push_all (memory b) emitted.
Proof. reflexivity. Qed.

Lemma append_spec b s a r ns na term env_id kw :
  let x := mk_experience s a r ns na term kw in
  append b s a r ns na term env_id kw
  = Ok (after b (append_emits (num_steps b) (window b env_id) x) env_id
          (append_window (num_steps b) (window b env_id) x)).
Proof.
  intros x. unfold append, append_emits, append_window. fold x.
  destruct b as [cap n mem wins]. simpl.
  destruct term; simpl.
  - rewrite flush_spec. done.
  - case_decide; done.
Qed.

Lemma stop_current_episode_spec b env_id :
  stop_current_episode b env_id
  = Ok (after b (stop_emits (num_steps b) (window b env_id)) env_id []).
Proof.
  unfold stop_current_episode, stop_emits.
  destruct b as [cap n mem wins]. simpl.
  set (w := window _ _). rewrite flush_spec.
  destruct (decide (0 < length w < n)) as [H1|H1]; simpl.
  - rewrite decide_True by lia. simpl.
    destruct w as [|x w]; [simpl in *; lia|].
    rewrite suffixes_cons. done.
  - case_decide; done.
Qed.
End buffer_facts.

(** ** Pushing windows: [append] and [stop_current_episode] *)

Section window_claims.
Context {Obs Act Rew Aux : Type}.
Import ReplayBuffer.
#[local] Abbreviation experience := (ReplayBuffer.experience Obs Act Rew Aux).
#[local] Abbreviation stored := (ReplayBuffer.stored Obs Act Rew Aux).
#[local] Abbreviation buffer := (ReplayBuffer.t Obs Act Rew Aux).
Implicit Types (b : buffer) (x : experience) (w : list experience)
  (q : RandomAccessQueue.t stored) (env_id : Z).

Lemma append_exp_spec b x env_id :
  append_exp b x env_id
  = Ok (after b (append_emits (num_steps b) (window b env_id) x) env_id
          (append_window (num_steps b) (window b env_id) x)).
Proof. unfold append_exp. rewrite append_spec. by destruct x. Qed.

Lemma NoDup_suffixes w : NoDup (suffixes w).
Proof.
  apply (NoDup_fmap_1 length). rewrite lengths_suffixes, reverse_Permutation.
  apply NoDup_seq.
Qed.

(** C1: an [append] whose terminal flag is true pushes, for the window
    [w] obtained by adding the new experience to the deque of [env_id],
    exactly [length w] transitions into the queue, namely the suffixes
    [drop 0 w], [drop 1 w], ... of lengths [L, L-1, ..., 1] in that
    order, and leaves the deque of [env_id] empty. *)
Theorem append_terminal_flushes_suffixes b s a r ns na env_id kw :
  let w := deque_append (num_steps b) (window b env_id)
             (mk_experience s a r ns na true kw) in
  ∃ b', append b s a r ns na true env_id kw = Ok b'
    ∧ memory b' = foldl RandomAccessQueue.append (memory b) (suffixes w)
    ∧ suffixes w = (λ i, drop i w) <$> seq 0 (length w)
    ∧ length (suffixes w) = length w
    ∧ length <$> suffixes w = reverse (seq 1 (length w))
    ∧ window b' env_id = [].
Proof.
  intros w. eexists. split; [apply append_spec|].
  unfold append_emits, append_window. cbn [is_state_terminal]. fold w.
  rewrite window_after, memory_after.
  split_and!; auto using length_suffixes, lengths_suffixes.
Qed.

(** C2: when the deque of [env_id] is full, a non-terminal [append]
    slides it by one (the oldest experience leaves, the new one enters),
    pushes that one window of length [num_steps] into the queue and
    leaves the deque full again; the queue grows by one item unless it
    is at its bound. *)
Theorem append_nonterminal_full_window b s a r ns na env_id kw :
  length (window b env_id) = num_steps b →
  let w := drop 1 (window b env_id ++ [mk_experience s a r ns na false kw]) in
  ∃ b', append b s a r ns na false env_id kw = Ok b'
    ∧ memory b' = RandomAccessQueue.append (memory b) w
    ∧ length w = num_steps b
    ∧ window b' env_id = w
    ∧ len b' = match RandomAccessQueue.maxlen (memory b) with
               | Some m => if decide (m < len b + 1) then len b else len b + 1
               | None => len b + 1
               end.
Proof.
  intros Hfull w. eexists. split; [apply append_spec|].
  unfold append_emits, append_window. cbn [is_state_terminal].
  rewrite deque_append_full by done. fold w.
  assert (length w = num_steps b) as Hw.
  { unfold w. rewrite length_drop, length_app. simpl. lia. }
  rewrite decide_True by done.
  rewrite window_after, memory_after. split_and!; try done.
  unfold len, RandomAccessQueue.len, after. simpl.
  destruct (RandomAccessQueue.maxlen (memory b)) as [m|];
    [|by rewrite length_app].
  repeat case_decide; rewrite ?length_drop, ?length_app in *; simpl in *; lia.
Qed.

(** A deque that is full after [append] has just been pushed: the call
    was not terminal (a terminal one leaves the deque empty) and its
    only push was the deque as it now stands. *)
Lemma append_full_window_pushed b s a r ns na term env_id kw b' :
  0 < num_steps b →
  append b s a r ns na term env_id kw = Ok b' →
  length (window b' env_id) = num_steps b →
  memory b' = RandomAccessQueue.append (memory b) (window b' env_id).
Proof.
  intros Hn. rewrite append_spec. intros [= <-].
  rewrite window_after, memory_after.
  unfold append_window, append_emits. cbn [is_state_terminal].
  destruct term; [simpl; lia|].
  intros Hfull. by rewrite decide_True.
Qed.

(** C4: [stop_current_episode] always returns; it pushes the suffixes of
    the deque of [env_id], each once and longest first, and leaves that
    deque empty.  A deque shorter than [num_steps] is pushed whole and
    then drained; a full deque, which the preceding [append] has pushed,
    is drained without being pushed again; an empty deque pushes
    nothing. *)
Theorem stop_current_episode_drains b env_id :
  let w := window b env_id in
  ∃ b' emitted, stop_current_episode b env_id = Ok b'
    ∧ memory b' = foldl RandomAccessQueue.append (memory b) emitted
    ∧ NoDup emitted
    ∧ window b' env_id = []
    ∧ (0 < length w < num_steps b →
         emitted = suffixes w
         ∧ length <$> emitted = reverse (seq 1 (length w)))
    ∧ (0 < length w → length w = num_steps b →
         emitted = suffixes (drop 1 w)
         ∧ length <$> emitted = reverse (seq 1 (num_steps b - 1))
         ∧ w ∉ emitted)
    ∧ (length w = 0 → emitted = [] ∧ memory b' = memory b).
Proof.
  intros w. exists (after b (stop_emits (num_steps b) w) env_id []).
  exists (stop_emits (num_steps b) w).
  split; [apply stop_current_episode_spec|].
  rewrite window_after, memory_after. unfold stop_emits.
  split_and!; try done.
  - repeat case_decide; apply NoDup_suffixes.
  - intros H. rewrite decide_True by done. by rewrite lengths_suffixes.
  - intros H1 H2. rewrite decide_False, decide_True by lia.
    split_and!; [done| |].
    + rewrite lengths_suffixes, length_drop. by rewrite H2.
    + intros Hin%suffixes_shorter. lia.
  - intros H. apply length_zero_iff_nil in H. rewrite H. simpl.
    repeat case_decide; done.
Qed.
End window_claims.

(** ** The scenario with capacity 3 and two steps per transition *)

Section scenario.
Context {Obs Act Rew Aux : Type}.
Import ReplayBuffer.
#[local] Abbreviation experience := (ReplayBuffer.experience Obs Act Rew Aux).
#[local] Abbreviation buffer := (ReplayBuffer.t Obs Act Rew Aux).
Implicit Types (b : buffer) (x : experience) (env_id : Z).

Lemma window_init cap n b env_id : init cap n = Ok b → window b env_id = [].
Proof.
  unfold init, assert_. case_bool_decide; [|done].
  intros [= <-]. unfold window. simpl. by rewrite lookup_empty.
Qed.

(** C5: with [capacity = 3] and [num_steps = 2], appending the
    non-terminal [x1] and [x2] and then the terminal [x3] under one
    environment id stores nothing after [x1], stores [[x1; x2]] after
    [x2], pushes [[x2; x3]] and then [[x3]] on [x3], and ends with the
    queue [[x1; x2]; [x2; x3]; [x3]]. *)
Theorem scenario_three_appends x1 x2 x3 env_id :
  is_state_terminal x1 = false →
  is_state_terminal x2 = false →
  is_state_terminal x3 = true →
  ∃ b0 b1 b2 b3 : buffer,
    init (Some 3) 2 = Ok b0
    ∧ append_exp b0 x1 env_id = Ok b1
    ∧ RandomAccessQueue.items (memory b1) = []
    ∧ append_exp b1 x2 env_id = Ok b2
    ∧ RandomAccessQueue.items (memory b2) = [[x1; x2]]
    ∧ append_exp b2 x3 env_id = Ok b3
    ∧ memory b3 = foldl RandomAccessQueue.append (memory b2) [[x2; x3]; [x3]]
    ∧ RandomAccessQueue.items (memory b3) = [[x1; x2]; [x2; x3]; [x3]].
Proof.
  intros H1 H2 H3.
  pose proof (window_init (Some 3) 2 _ env_id eq_refl) as Hw0.
  eexists _, _, _, _. split; [reflexivity|].
  split; [apply append_exp_spec|].
  rewrite Hw0. unfold append_emits, append_window. rewrite H1.
  split; [reflexivity|].
  split; [apply append_exp_spec|].
  rewrite window_after. unfold append_emits, append_window. rewrite H2.
  split; [reflexivity|].
  split; [apply append_exp_spec|].
  rewrite window_after. unfold append_emits, append_window. rewrite H3.
  split; reflexivity.
Qed.
End scenario.

(** ** Sequences of calls *)

Section runs.
Context {Obs Act Rew Aux : Type}.
Import ReplayBuffer.
#[local] Abbreviation experience := (ReplayBuffer.experience Obs Act Rew Aux).
#[local] Abbreviation stored := (ReplayBuffer.stored Obs Act Rew Aux).
#[local] Abbreviation buffer := (ReplayBuffer.t Obs Act Rew Aux).
#[local] Abbreviation op := (op Obs Act Rew Aux).
Implicit Types (b : buffer) (x : experience) (w : list experience)
  (o : op) (ops : list op) (env_id : Z).

Lemma step_spec b o :
  step b o
  = Ok (after b (step_emits (num_steps b) (window b (op_env o)) o) (op_env o)
          (step_window (num_steps b) (window b (op_env o)) o)).
Proof.
  destruct o as [x env_id|env_id]; simpl.
  - apply append_exp_spec.
  - apply stop_current_episode_spec.
Qed.

(** No call of a sequence raises. *)
Lemma run_total b ops : ∃ b', run b ops = Ok b'.
Proof.
  revert b. induction ops as [|o ops IH]; intros b; simpl; [by eexists|].
  rewrite step_spec. simpl. apply IH.
Qed.

(** Induction over the calls of a sequence. *)
Lemma run_invariant (P : buffer → Prop) :
  (∀ b o b', P b → step b o = Ok b' → P b') →
  ∀ ops b b', P b → run b ops = Ok b' → P b'.
Proof.
  intros Hstep ops. induction ops as [|o ops IH]; intros b b' HP; simpl.
  - by intros [= <-].
  - destruct (step b o) as [b1|e] eqn:Hs; simpl; [|done].
    intros Hrun. eapply IH; [|done]. by eapply Hstep.
Qed.

Lemma init_spec cap n :
  0 < n →
  init cap n = Ok (mk cap n (RandomAccessQueue.init [] cap) ∅ : buffer).
Proof. intros Hn. unfold init. by rewrite bool_decide_eq_true_2. Qed.

Lemma run_queue_bounded cap n ops b0 b :
  init cap n = Ok b0 → run b0 ops = Ok b →
  RandomAccessQueue.maxlen (memory b) = cap ∧ bounded (memory b).
Proof.
  intros Hinit Hrun.
  eapply (run_invariant
            (λ b, RandomAccessQueue.maxlen (memory b) = cap ∧ bounded (memory b)));
    [| |exact Hrun].
  - clear. intros b o b' [Hm Hb]. rewrite step_spec. intros [= <-].
    rewrite memory_after, maxlen_push_all. split; [done|].
    by apply bounded_push_all.
  - unfold init, assert_ in Hinit. case_bool_decide; [|done].
    injection Hinit as <-. split; [done|]. apply bounded_init.
Qed.

(** C6: a buffer made with the finite capacity [C] never holds more than
    [C] transitions, whatever calls of [append] and
    [stop_current_episode] it receives (none of which raises).  A push
    into the queue at length [C] discards the oldest item, and after
    [C + 1] pushes the queue holds the pushed items without the first. *)
Theorem capacity_never_exceeded (C n : nat) ops :
  0 < n →
  ∃ b0 b : buffer,
    init (Some C) n = Ok b0
    ∧ run b0 ops = Ok b
    ∧ len b ≤ C
    ∧ (∀ s, len b = C →
         RandomAccessQueue.items (RandomAccessQueue.append (memory b) s)
         = drop 1 (RandomAccessQueue.items (memory b) ++ [s]))
    ∧ (∀ pushed, length pushed = C + 1 →
         RandomAccessQueue.items (foldl RandomAccessQueue.append (memory b) pushed)
         = drop 1 pushed).
Proof.
  intros Hn. eexists. destruct (run_total (mk (Some C) n
    (RandomAccessQueue.init [] (Some C)) ∅ : buffer) ops) as [b Hrun].
  exists b. split; [by apply init_spec|]. split; [done|].
  destruct (run_queue_bounded (Some C) n ops _ b (init_spec _ _ Hn) Hrun)
    as [Hmax Hb].
  assert (len b ≤ C) as Hlen.
  { unfold bounded in Hb. by rewrite Hmax in Hb. }
  split_and!; [done| |].
  - intros s HC. by apply (items_append_full _ _ C).
  - intros pushed Hp. change (foldl _ ?q ?l) with (push_all q l).
    rewrite items_push_all, Hmax by done. simpl.
    unfold len, RandomAccessQueue.len in Hlen.
    rewrite length_app, Hp.
    replace (_ + _ - C) with (length (RandomAccessQueue.items (memory b)) + 1) by lia.
    by rewrite <- drop_drop, drop_app_length.
Qed.

(** ** Sampling *)

Lemma draw_submseteq {A} (rng : list nat) (pool : list A) k :
  RandomAccessQueue.draw rng pool k ⊆+ pool.
Proof.
  revert rng pool. induction k as [|k IH]; intros rng pool; simpl.
  - apply submseteq_nil_l.
  - destruct (pool !! _) as [x|] eqn:Hx; [|apply submseteq_nil_l].
    trans (x :: delete (hd 0 rng `mod` length pool) pool).
    + apply submseteq_skip, IH.
    + apply Permutation_submseteq. symmetry. by apply delete_Permutation.
Qed.

Lemma length_draw {A} (rng : list nat) (pool : list A) k :
  k ≤ length pool → length (RandomAccessQueue.draw rng pool k) = k.
Proof.
  revert rng pool. induction k as [|k IH]; intros rng pool Hk; simpl; [done|].
  assert (hd 0 rng `mod` length pool < length pool) as Hlt.
  { apply Nat.mod_upper_bound. lia. }
  destruct (lookup_lt_is_Some_2 _ _ Hlt) as [x Hx]. rewrite Hx. simpl.
  rewrite IH; [done|]. rewrite length_delete by by eexists. lia.
Qed.

(** C7: [sample] fails (the [assert] that guards it) exactly when more
    items are asked for than are stored; otherwise it returns as many
    items as asked for, each taken from a different position of the
    queue. *)
Theorem sample_spec (rng : list nat) b (k : nat) :
  (sample rng b k = Raise AssertionError ↔ len b < k)
  ∧ (k ≤ len b →
       ∃ xs, sample rng b k = Ok xs
         ∧ length xs = k
         ∧ xs ⊆+ RandomAccessQueue.items (memory b)).
Proof.
  unfold sample, assert_, len, RandomAccessQueue.len, RandomAccessQueue.sample.
  case_bool_decide as Hk; simpl.
  - split; [split; [done|lia]|]. intros _. eexists. split; [done|].
    split; [by apply length_draw|apply draw_submseteq].
  - split; [split; [lia|done]|]. lia.
Qed.
End runs.

(** ** Saving and loading *)

Section persistence.
Context {Obs Act Rew Aux : Type}.
Import ReplayBuffer.
#[local] Abbreviation stored := (ReplayBuffer.stored Obs Act Rew Aux).
#[local] Abbreviation buffer := (ReplayBuffer.t Obs Act Rew Aux).
#[local] Abbreviation obj := (ReplayBuffer.obj Obs Act Rew Aux).
#[local] Abbreviation file := (ReplayBuffer.file Obs Act Rew Aux).
#[local] Abbreviation foreign := (ReplayBuffer.foreign Obs Act Rew Aux).
Implicit Types (b : buffer) (fs : gmap string file) (filename : string).

Lemma load_pickled_queue {M} (b' : obj M) fs filename q :
  fs !! filename = Some (Pickle (PyRandomAccessQueue q)) →
  load b' fs filename = Ok (set_memory b' (PyRandomAccessQueue q)).
Proof. intros H. unfold load. by rewrite H. Qed.

(** A file written by version 0.2 holds a [collections.deque]; loading
    it gives a queue with the items of the deque, in their order. *)
Lemma load_pickled_deque {M} (b' : obj M) fs filename d maxlen :
  fs !! filename = Some (Pickle (PyDeque d maxlen)) →
  load b' fs filename
  = Ok (set_memory b' (PyRandomAccessQueue (RandomAccessQueue.init d maxlen))).
Proof. intros H. unfold load. by rewrite H. Qed.

Lemma load_missing_file {M} (b' : obj M) fs filename :
  fs !! filename = None → load b' fs filename = Raise FileNotFoundError.
Proof. intros H. unfold load. by rewrite H. Qed.

Lemma load_not_a_pickle {M} (b' : obj M) fs filename :
  fs !! filename = Some NotAPickle → load b' fs filename = Raise UnpicklingError.
Proof. intros H. unfold load. by rewrite H. Qed.

(** C8: loading, into any buffer, the file that [save] wrote for [b]
    gives a buffer whose queue is the queue of [b]: the same stored
    transitions in the same order, and the same length. *)
Theorem save_load_roundtrip {M} b (b' : obj M) fs filename :
  ∃ r : buffer,
    load b' (save b fs filename) filename
    = Ok (set_memory r (PyRandomAccessQueue (memory r)))
    ∧ memory r = memory b
    ∧ RandomAccessQueue.items (memory r) = RandomAccessQueue.items (memory b)
    ∧ len r = len b.
Proof.
  exists (set_memory b' (memory b)). split; [|done].
  unfold save. erewrite load_pickled_queue; [done|]. apply lookup_insert_eq.
Qed.

(** C9, as the code has it: when [pickle.load] returns from the file an
    object that is neither a [RandomAccessQueue] nor a
    [collections.deque], [load] raises nothing; it returns with
    [self.memory] bound to that object and the other attributes as they
    were. *)
Theorem load_unrecognised_object {M} (b' : obj M) fs filename (o : foreign) :
  fs !! filename = Some (Pickle (PyOther o)) →
  load b' fs filename = Ok (set_memory b' (PyOther o)).
Proof. intros H. unfold load. by rewrite H. Qed.

(** C10: what [save] writes is determined by the queue alone, so the
    deques of pending experiences are not written; and a [load] that
    returns has changed no attribute but [memory]. *)
Theorem save_load_frame {M} (b1 b2 : buffer) (b : obj M) (r : obj _) fs filename :
  (memory b1 = memory b2 → save b1 fs filename = save b2 fs filename)
  ∧ (load b fs filename = Ok r →
       capacity r = capacity b
       ∧ num_steps r = num_steps b
       ∧ last_n_transitions r = last_n_transitions b).
Proof.
  split.
  - intros H. unfold save. by rewrite H.
  - unfold load. destruct (fs !! filename) as [[[q|d m|o]|]|]; try done;
      by intros [= <-].
Qed.
End persistence.

(** ** Where the appended experiences go *)

Section accounting.
Context {Obs Act Rew Aux : Type}.
Import ReplayBuffer.
#[local] Abbreviation experience := (ReplayBuffer.experience Obs Act Rew Aux).
#[local] Abbreviation stored := (ReplayBuffer.stored Obs Act Rew Aux).
#[local] Abbreviation buffer := (ReplayBuffer.t Obs Act Rew Aux).
#[local] Abbreviation op := (op Obs Act Rew Aux).
Implicit Types (b u : buffer) (x : experience) (w : list experience)
  (o : op) (ops : list op) (env_id : Z) (m : gmap Z (list experience)).

Lemma appended_cons o ops : appended (o :: ops) = appended [o] ++ appended ops.
Proof. unfold appended. by rewrite !bind_cons, app_nil_r. Qed.

Lemma pending_of_nil n : pending_of n (@nil experience) = [].
Proof. unfold pending_of. by case_decide. Qed.

(** A deque within its bound, after [append]: what was pending, and the
    new experience. *)
Lemma deque_append_pending n w x :
  0 < n → length w ≤ n → deque_append n w x = pending_of n w ++ [x].
Proof.
  intros Hn Hw. unfold pending_of. case_decide.
  - by apply deque_append_room.
  - rewrite deque_append_full by lia.
    destruct w as [|y w]; [simpl in *; lia|done].
Qed.

Lemma head_full_window n w :
  0 < n → length w = n → omap head [w] ++ pending_of n w = w.
Proof.
  intros Hn Hw. unfold pending_of. rewrite decide_False by lia.
  destruct w as [|y w]; [simpl in *; lia|done].
Qed.

(** One call: the oldest elements of what it pushes, together with what
    it leaves pending, are what was pending together with what it was
    given. *)
Lemma step_accounting n w o :
  0 < n → length w ≤ n →
  omap head (step_emits n w o) ++ pending_of n (step_window n w o)
  = pending_of n w ++ appended [o].
Proof.
  intros Hn Hw. destruct o as [x env_id|env_id]; simpl.
  - unfold append_emits, append_window.
    pose proof (length_deque_append n w x Hw Hn) as Hlen.
    destruct (is_state_terminal x).
    + rewrite heads_suffixes, pending_of_nil, !app_nil_r.
      by apply deque_append_pending.
    + case_decide as Hfull.
      * rewrite head_full_window by done. by apply deque_append_pending.
      * simpl. unfold pending_of at 1. rewrite decide_True by lia.
        by apply deque_append_pending.
  - unfold stop_emits. rewrite pending_of_nil, !app_nil_r. unfold pending_of.
    destruct (decide (0 < length w < n)).
    + rewrite decide_True by lia. apply heads_suffixes.
    + destruct (decide (length w < n)).
      * assert (w = []) as -> by (apply length_zero_iff_nil; lia).
        by case_decide.
      * rewrite decide_True by lia. apply heads_suffixes.
Qed.

Lemma length_step_window n w o :
  0 < n → length w ≤ n → length (step_window n w o) ≤ n.
Proof.
  intros Hn Hw. destruct o as [x env_id|env_id]; simpl; [|lia].
  unfold append_window. destruct (is_state_terminal x); simpl; [lia|].
  by apply length_deque_append.
Qed.

(** The pending experiences of a dictionary of deques, one key set
    apart. *)
Lemma pending_insert n m env_id w :
  map_to_list (<[env_id := w]> m) ≫= (λ kw, pending_of n kw.2)
  ≡ₚ pending_of n w ++ (map_to_list (delete env_id m) ≫= λ kw, pending_of n kw.2).
Proof.
  rewrite <- insert_delete_eq.
  rewrite map_to_list_insert by apply lookup_delete_eq.
  by rewrite bind_cons.
Qed.

Lemma pending_lookup n m env_id :
  map_to_list m ≫= (λ kw, pending_of n kw.2)
  ≡ₚ pending_of n (default [] (m !! env_id))
     ++ (map_to_list (delete env_id m) ≫= λ kw, pending_of n kw.2).
Proof.
  destruct (m !! env_id) as [w|] eqn:Hw; simpl.
  - rewrite <- (map_to_list_delete m env_id w Hw). by rewrite bind_cons.
  - rewrite pending_of_nil. by rewrite delete_id.
Qed.

Lemma items_push_all_unbounded (q : RandomAccessQueue.t stored) xs :
  RandomAccessQueue.maxlen q = None →
  RandomAccessQueue.items (push_all q xs) = RandomAccessQueue.items q ++ xs.
Proof.
  intros H. rewrite items_push_all by (unfold bounded; by rewrite H).
  by rewrite H.
Qed.

(** The invariant of a buffer without bound: the oldest elements of its
    stored transitions and its pending experiences are the experiences
    it was given. *)
Lemma step_accounted n b o b' log :
  0 < n → num_steps b = n →
  RandomAccessQueue.maxlen (memory b) = None →
  windows_bounded b →
  omap head (RandomAccessQueue.items (memory b)) ++ pending b ≡ₚ log →
  step b o = Ok b' →
  num_steps b' = n
  ∧ RandomAccessQueue.maxlen (memory b') = None
  ∧ windows_bounded b'
  ∧ omap head (RandomAccessQueue.items (memory b')) ++ pending b'
    ≡ₚ log ++ appended [o].
Proof.
  intros Hn Hnum Hmax Hwin Hlog. rewrite step_spec, Hnum. intros [= <-].
  set (e := op_env o). set (w := window b e).
  assert (length w ≤ n) as Hw by (rewrite <- Hnum; apply Hwin).
  split_and!.
  - done.
  - by rewrite memory_after, maxlen_push_all.
  - intros e'. destruct (decide (e = e')) as [<-|Hne].
    + rewrite window_after. change (num_steps (after _ _ _ _)) with (num_steps b).
      rewrite Hnum. by apply length_step_window.
    + rewrite window_after_ne by done. apply Hwin.
  - rewrite memory_after, items_push_all_unbounded, omap_app by done.
    unfold pending. change (num_steps (after _ _ _ _)) with (num_steps b).
    change (last_n_transitions (after _ _ _ _))
      with (<[e := step_window n w o]> (last_n_transitions b)).
    rewrite Hnum, pending_insert.
    rewrite <- Hlog. unfold pending.
    rewrite Hnum, (pending_lookup n (last_n_transitions b) e).
    fold (window b e). fold w.
    rewrite <- !app_assoc, (app_assoc (omap head (step_emits n w o))).
    rewrite step_accounting by done.
    rewrite <- !app_assoc. f_equiv. f_equiv. apply Permutation_app_comm.
Qed.

Lemma run_accounted n ops : ∀ b b' log,
  0 < n → num_steps b = n →
  RandomAccessQueue.maxlen (memory b) = None →
  windows_bounded b →
  omap head (RandomAccessQueue.items (memory b)) ++ pending b ≡ₚ log →
  run b ops = Ok b' →
  windows_bounded b'
  ∧ omap head (RandomAccessQueue.items (memory b')) ++ pending b'
    ≡ₚ log ++ appended ops.
Proof.
  induction ops as [|o ops IH]; intros b b' log Hn Hnum Hmax Hwin Hlog.
  - intros [= <-]. by rewrite app_nil_r.
  - cbn [run]. destruct (step b o) as [b1|err] eqn:Hs; [|done]. intros Hrun.
    change (run b1 ops = Ok b') in Hrun.
    destruct (step_accounted n b o b1 log) as (H1 & H2 & H3 & H4); try done.
    rewrite appended_cons, app_assoc. by eapply IH.
Qed.
End accounting.

(** ** Bounded and unbounded queues under the same calls *)

Section simulation.
Context {Obs Act Rew Aux : Type}.
Import ReplayBuffer.
#[local] Abbreviation experience := (ReplayBuffer.experience Obs Act Rew Aux).
#[local] Abbreviation stored := (ReplayBuffer.stored Obs Act Rew Aux).
#[local] Abbreviation buffer := (ReplayBuffer.t Obs Act Rew Aux).
#[local] Abbreviation op := (op Obs Act Rew Aux).
Implicit Types (b u : buffer) (o : op) (ops : list op).

Lemma step_newest_of cap b u o b' u' :
  newest_of cap b u → step b o = Ok b' → step u o = Ok u' → newest_of cap b' u'.
Proof.
  intros (Hn & Hw & Hcap & Hb & Hnone & Hitems).
  rewrite !step_spec. intros [= <-] [= <-].
  unfold window. rewrite Hn, Hw.
  set (emitted := step_emits _ _ _). set (w := step_window _ _ _).
  unfold newest_of. rewrite !memory_after, !maxlen_push_all.
  split_and!; try done.
  - unfold after. simpl. by rewrite Hw.
  - by apply bounded_push_all.
  - rewrite items_push_all by done.
    rewrite items_push_all_unbounded by done.
    by rewrite Hcap, Hitems, apply_maxlen_app.
Qed.

Lemma run_newest_of cap ops : ∀ b u b' u',
  newest_of cap b u → run b ops = Ok b' → run u ops = Ok u' → newest_of cap b' u'.
Proof.
  induction ops as [|o ops IH]; intros b u b' u' H.
  - by intros [= <-] [= <-].
  - cbn [run].
    destruct (step b o) as [b1|] eqn:Hb; [|done].
    destruct (step u o) as [u1|] eqn:Hu; [|done].
    apply IH. by eapply step_newest_of.
Qed.

Lemma step_emits_nonempty n (w : list experience) o :
  0 < n → Forall (λ s, s ≠ []) (step_emits n w o).
Proof.
  intros Hn.
  assert (∀ v : list experience, Forall (λ s, s ≠ []) (suffixes v)) as Hsuf.
  { intros v. apply Forall_forall. intros s Hs.
    apply list_elem_of_lookup in Hs as [i Hi].
    assert (i < length v) as Hlt.
    { rewrite <- length_suffixes. by eapply lookup_lt_Some. }
    rewrite suffixes_lookup in Hi by done. injection Hi as <-.
    intros Hnil%(f_equal length). rewrite length_drop in Hnil. simpl in Hnil. lia. }
  destruct o as [x env_id|env_id]; simpl.
  - unfold append_emits. destruct (is_state_terminal x); [apply Hsuf|].
    case_decide as Hlen; [|done]. apply Forall_singleton.
    intros Hnil. rewrite Hnil in Hlen. simpl in Hlen. lia.
  - unfold stop_emits. repeat case_decide; apply Hsuf.
Qed.

Lemma run_stored_nonempty n ops b b' :
  0 < n → num_steps b = n →
  RandomAccessQueue.maxlen (memory b) = None →
  Forall (λ s, s ≠ []) (RandomAccessQueue.items (memory b)) →
  run b ops = Ok b' →
  Forall (λ s, s ≠ []) (RandomAccessQueue.items (memory b')).
Proof.
  intros Hn Hnum Hmax Hall Hrun.
  eapply (run_invariant (λ b,
            num_steps b = n
            ∧ RandomAccessQueue.maxlen (memory b) = None
            ∧ Forall (λ s, s ≠ []) (RandomAccessQueue.items (memory b))));
    [|split_and!; done|exact Hrun].
  clear -Hn. intros b o b' (Hnum & Hmax & Hall). rewrite step_spec. intros [= <-].
  rewrite memory_after, maxlen_push_all, items_push_all_unbounded by done.
  split_and!; try done. apply Forall_app. split; [done|].
  apply step_emits_nonempty. by rewrite Hnum.
Qed.

(** C3, as the code has it: none of the calls raises, and each
    experience given to [append] is the oldest element of exactly one
    stored transition pushed into the queue, or is still pending in its
    deque (until that deque is full or the episode ends).  The pushed
    transitions are non-empty, they are the queue of the buffer without
    capacity, and a buffer with a capacity holds the newest of them.
    (An experience also occurs, further back, in the transitions pushed
    for the steps before it: see [experience_in_two_stored].) *)
Theorem appended_oldest_exactly_once cap n ops :
  0 < n →
  ∃ b0 b u0 u : buffer,
    init cap n = Ok b0 ∧ run b0 ops = Ok b
    ∧ init None n = Ok u0 ∧ run u0 ops = Ok u
    ∧ omap head (RandomAccessQueue.items (memory u)) ++ pending u
      ≡ₚ appended ops
    ∧ Forall (λ s, s ≠ []) (RandomAccessQueue.items (memory u))
    ∧ RandomAccessQueue.items (memory b)
      = RandomAccessQueue.apply_maxlen cap (RandomAccessQueue.items (memory u))
    ∧ last_n_transitions b = last_n_transitions u.
Proof.
  intros Hn.
  set (b0 := mk cap n (RandomAccessQueue.init [] cap) ∅ : buffer).
  set (u0 := mk None n (RandomAccessQueue.init [] None) ∅ : buffer).
  destruct (run_total b0 ops) as [b Hb]. destruct (run_total u0 ops) as [u Hu].
  exists b0, b, u0, u.
  split; [by apply init_spec|]. split; [done|].
  split; [by apply init_spec|]. split; [done|].
  assert (windows_bounded u0) as Hwin.
  { intros e. unfold window. simpl. rewrite lookup_empty. simpl. lia. }
  destruct (run_accounted n ops u0 u [] Hn eq_refl eq_refl Hwin) as [_ Hacc];
    [done..|].
  assert (newest_of cap b u) as (_ & Hw & _ & _ & _ & Hitems).
  { eapply run_newest_of; [|done..]. unfold newest_of.
    split_and!; try done; first [apply bounded_init | by destruct cap]. }
  split_and!; try done.
  by eapply (run_stored_nonempty n ops u0 u).
Qed.
End simulation.

(** ** The statements at concrete buffers *)

Section examples.
Import ReplayBuffer Example.

(** A full deque slides: with [num_steps = 2] and the deque [[x1; x2]],
    appending a non-terminal step stores the window of the last two. *)
Lemma append_nonterminal_full_window_example :
  length (window (holding [x1; x2]) 0) = num_steps (holding [x1; x2])
  ∧ ∃ b', append (holding [x1; x2]) 12 0 2%Z None None false 0 ∅ = Ok b'
      ∧ RandomAccessQueue.items (memory b')
        = [[x2; mk_experience 12 0 2%Z None None false ∅]]
      ∧ len b' = len (holding [x1; x2]) + 1.
Proof.
  split; [reflexivity|].
  destruct (append_nonterminal_full_window (holding [x1; x2])
              12 0 2%Z None None 0%Z ∅ eq_refl)
    as (b' & Happ & Hmem & _ & _ & Hlen).
  exists b'. split; [exact Happ|]. split.
  - rewrite Hmem. reflexivity.
  - rewrite Hlen. reflexivity.
Defined.

(** Stopping with a short deque, with a full deque and with an empty
    one. *)
Lemma stop_current_episode_drains_example :
  (∃ b', stop_current_episode (holding [x1]) 0 = Ok b'
     ∧ RandomAccessQueue.items (memory b') = [[x1]] ∧ window b' 0 = [])
  ∧ (∃ b', stop_current_episode (holding [x1; x2]) 0 = Ok b'
       ∧ RandomAccessQueue.items (memory b') = [[x2]] ∧ window b' 0 = [])
  ∧ (∃ b', stop_current_episode (holding []) 0 = Ok b'
       ∧ RandomAccessQueue.items (memory b') = [] ∧ window b' 0 = []).
Proof.
  split_and!.
  - destruct (stop_current_episode_drains (holding [x1]) 0)
      as (b' & emitted & Hstop & Hmem & _ & Hwin & Hshort & _ & _).
    exists b'. split_and!; [done| |done].
    rewrite Hmem. destruct Hshort as [-> _]; [vm_compute; lia|]. reflexivity.
  - destruct (stop_current_episode_drains (holding [x1; x2]) 0)
      as (b' & emitted & Hstop & Hmem & _ & Hwin & _ & Hfull & _).
    exists b'. split_and!; [done| |done].
    rewrite Hmem. destruct Hfull as (-> & _ & _); [vm_compute; lia|reflexivity|].
    reflexivity.
  - destruct (stop_current_episode_drains (holding []) 0)
      as (b' & emitted & Hstop & Hmem & _ & Hwin & _ & _ & Hempty).
    exists b'. split_and!; [done| |done].
    destruct Hempty as [_ ->]; reflexivity.
Defined.

(** The scenario on the three steps [x1], [x2], [x3]. *)
Lemma scenario_three_appends_example :
  is_state_terminal x1 = false
  ∧ is_state_terminal x2 = false
  ∧ is_state_terminal x3 = true
  ∧ ∃ b, run (fresh (Some 3) 2) [Append x1 0; Append x2 0; Append x3 0] = Ok b
      ∧ RandomAccessQueue.items (memory b) = [[x1; x2]; [x2; x3]; [x3]].
Proof.
  split_and!; [reflexivity..|].
  destruct (scenario_three_appends x1 x2 x3 0 eq_refl eq_refl eq_refl)
    as (b0 & b1 & b2 & b3 & H0 & H1 & _ & H2 & _ & H3 & _ & Hitems).
  exists b3. split; [|exact Hitems].
  injection H0 as <-. unfold fresh. cbn [run step]. rewrite H1.
  cbn [mbind result_bind].
  rewrite H2. cbn [mbind result_bind]. rewrite H3. reflexivity.
Defined.

(** With capacity 2 the same calls leave the two newest transitions. *)
Lemma capacity_never_exceeded_example :
  0 < 2
  ∧ ∃ b, run (fresh (Some 2) 2) [Append x1 0; Append x2 0; Append x3 0] = Ok b
      ∧ len b ≤ 2
      ∧ RandomAccessQueue.items (memory b) = [[x2; x3]; [x3]].
Proof.
  split; [lia|].
  destruct (capacity_never_exceeded (Obs:=nat) (Act:=nat) (Rew:=Z) (Aux:=Z)
              2 2 [Append x1 0; Append x2 0; Append x3 0] ltac:(lia))
    as (b0 & b & H0 & Hrun & Hlen & _).
  exists b. injection H0 as <-.
  split; [exact Hrun|]. split; [exact Hlen|].
  vm_compute in Hrun. injection Hrun as <-. reflexivity.
Defined.

(** Sampling two of three, and asking for four of three. *)
Lemma sample_spec_example :
  (∃ xs, sample [5; 7] (mk None 1 (RandomAccessQueue.init [[x1]; [x2]; [x3]] None) ∅) 2
         = Ok xs ∧ xs = [[x3]; [x2]])
  ∧ sample [5; 7] (mk None 1 (RandomAccessQueue.init [[x1]; [x2]; [x3]] None) ∅) 4
    = Raise AssertionError.
Proof.
  set (b := mk None 1 (RandomAccessQueue.init [[x1]; [x2]; [x3]] None) ∅).
  split.
  - destruct (sample_spec [5; 7] b 2) as [_ Hok].
    destruct Hok as (xs & Hxs & _ & _); [vm_compute; lia|].
    exists xs. split; [exact Hxs|].
    vm_compute in Hxs. injection Hxs as <-. reflexivity.
  - apply (sample_spec [5; 7] b 4). vm_compute. lia.
Defined.
(** An experience in two stored transitions: after the three steps of
    the scenario nothing has been evicted, and [x2] is both in the
    first and in the second stored transition. *)
Lemma experience_in_two_stored :
  ∃ b, init (Some 3) 2 = Ok (fresh (Some 3) 2)
    ∧ run (fresh (Some 3) 2) [Append x1 0; Append x2 0; Append x3 0] = Ok b
    ∧ RandomAccessQueue.items (memory b) = [[x1; x2]; [x2; x3]; [x3]]
    ∧ ¬ in_at_most_one (RandomAccessQueue.items (memory b)).
Proof.
  eexists. split; [reflexivity|]. split; [vm_compute; reflexivity|].
  split; [reflexivity|].
  intros H.
  assert (0 = 1) as Heq; [|discriminate Heq].
  apply (H x2 0 1 [x1; x2] [x2; x3]); [reflexivity..| |].
  - apply list_elem_of_further, list_elem_of_here.
  - apply list_elem_of_here.
Qed.

(** The accounting on the scenario with capacity 2: the three steps are
    the oldest elements of the three pushed transitions, of which the
    queue keeps the two newest. *)
Lemma appended_oldest_exactly_once_example :
  0 < 2
  ∧ ∃ b u,
      run (fresh (Some 2) 2) [Append x1 0; Append x2 0; Append x3 0] = Ok b
      ∧ run (fresh None 2) [Append x1 0; Append x2 0; Append x3 0] = Ok u
      ∧ omap head (RandomAccessQueue.items (memory u)) ++ pending u
        ≡ₚ [x1; x2; x3]
      ∧ RandomAccessQueue.items (memory b)
        = drop 1 (RandomAccessQueue.items (memory u)).
Proof.
  split; [lia|].
  destruct (appended_oldest_exactly_once (Obs:=nat) (Act:=nat) (Rew:=Z) (Aux:=Z)
              (Some 2) 2 [Append x1 0; Append x2 0; Append x3 0] ltac:(lia))
    as (b0 & b & u0 & u & H0 & Hb & H1 & Hu & Hacc & _ & Hitems & _).
  injection H0 as <-. injection H1 as <-.
  exists b, u. split; [exact Hb|]. split; [exact Hu|]. split; [exact Hacc|].
  rewrite Hitems. vm_compute in Hu. injection Hu as <-. reflexivity.
Defined.

(** A file that holds the pickle of a list: [load] raises nothing. *)
Lemma load_list_raises_nothing :
  ¬ ∃ e, load (fresh None 1) (disk (Pickle (PyOther (PyList [])))) filename
         = Raise e.
Proof. intros [e He]. vm_compute in He. discriminate He. Qed.

Lemma load_unrecognised_object_example :
  disk (Pickle (PyOther (PyList []))) !! filename
  = Some (Pickle (PyOther (PyList [])))
  ∧ load (fresh None 1) (disk (Pickle (PyOther (PyList [])))) filename
    = Ok (set_memory (fresh None 1) (PyOther (PyList []))).
Proof.
  split; [reflexivity|].
  apply (load_unrecognised_object (fresh None 1)). reflexivity.
Defined.

(** Two buffers with the same queue and different deques write the same
    file, and loading it into one of them keeps its deques. *)
Lemma save_load_frame_example :
  memory (holding [x1]) = memory (holding [])
  ∧ save (holding [x1]) ∅ filename = save (holding []) ∅ filename
  ∧ ∃ r, load (holding [x1]) (save (holding []) ∅ filename) filename = Ok r
      ∧ capacity r = None ∧ num_steps r = 2
      ∧ last_n_transitions r = {[ 0%Z := [x1] ]}.
Proof.
  split; [reflexivity|]. split.
  - apply (save_load_frame (holding [x1]) (holding []) (holding [x1])
             (set_memory (holding [x1]) (PyOther PyNone)) ∅ filename).
    reflexivity.
  - eexists. split; [reflexivity|].
    apply (save_load_frame (holding [x1]) (holding []) (holding [x1])
             _ (save (holding []) ∅ filename) filename). reflexivity.
Defined.
End examples.

(** ** Episodes *)

Section episodes.
Context {Obs Act Rew Aux : Type}.
Import ReplayBuffer.
#[local] Abbreviation experience := (ReplayBuffer.experience Obs Act Rew Aux).
#[local] Abbreviation stored := (ReplayBuffer.stored Obs Act Rew Aux).
#[local] Abbreviation buffer := (ReplayBuffer.t Obs Act Rew Aux).
#[local] Abbreviation op := (op Obs Act Rew Aux).
Implicit Types (b : buffer) (x : experience) (w xs : list experience)
  (o : op) (ops : list op) (env_id : Z).

Lemma run_app ops1 ops2 b :
  run b (ops1 ++ ops2) = b' ← run b ops1; run b' ops2.
Proof.
  revert b. induction ops1 as [|o ops1 IH]; intros b; [done|].
  cbn [app run]. destruct (step b o) as [b1|err]; [|done]. apply IH.
Qed.

(** What one call changes. *)
Lemma step_effect b o b' :
  step b o = Ok b' →
  memory b' = push_all (memory b)
                (step_emits (num_steps b) (window b (op_env o)) o)
  ∧ window b' (op_env o) = step_window (num_steps b) (window b (op_env o)) o
  ∧ (∀ env_id, env_id ≠ op_env o → window b' env_id = window b env_id)
  ∧ num_steps b' = num_steps b
  ∧ capacity b' = capacity b.
Proof.
  rewrite step_spec. intros [= <-]. rewrite window_after, memory_after.
  split_and!; try done. intros e He. by rewrite window_after_ne.
Qed.

Lemma take_drop_app_short n j xs (ys : list experience) :
  j + n ≤ length xs → take n (drop j (xs ++ ys)) = take n (drop j xs).
Proof.
  intros H. rewrite drop_app_le by lia. rewrite take_app_le; [done|].
  rewrite length_drop. lia.
Qed.

Lemma full_windows_snoc n xs x :
  0 < n → n ≤ length xs + 1 →
  full_windows n (xs ++ [x])
  = full_windows n xs ++ [drop (length xs + 1 - n) (xs ++ [x])].
Proof.
  intros Hn Hlen. unfold full_windows. rewrite length_app. simpl.
  replace (length xs + 1 + 1 - n) with (S (length xs + 1 - n)) by lia.
  rewrite seq_S, fmap_app. simpl. f_equal.
  - apply list_fmap_ext. intros i j Hj.
    apply lookup_seq in Hj as [-> Hlt]. simpl.
    apply take_drop_app_short. lia.
  - f_equal. apply take_ge. rewrite length_drop, length_app. simpl. lia.
Qed.

Lemma full_windows_short n xs : length xs + 1 ≤ n → full_windows n xs = [].
Proof.
  intros H. unfold full_windows.
  by replace (length xs + 1 - n) with 0 by lia.
Qed.

Lemma deque_append_slide n xs x :
  0 < n →
  deque_append n (drop (length xs - n) xs) x
  = drop (length xs + 1 - n) (xs ++ [x]).
Proof.
  intros Hn. destruct (decide (length xs < n)).
  - replace (length xs - n) with 0 by lia.
    replace (length xs + 1 - n) with 0 by lia. simpl.
    by apply deque_append_room.
  - rewrite deque_append_full by (rewrite length_drop; lia).
    rewrite <- drop_app_le by lia. rewrite drop_drop. f_equal. lia.
Qed.

Lemma append_emits_slide n xs x :
  0 < n → is_state_terminal x = false →
  full_windows n xs ++ append_emits n (drop (length xs - n) xs) x
  = full_windows n (xs ++ [x]).
Proof.
  intros Hn Hx. unfold append_emits. rewrite Hx, deque_append_slide by done.
  case_decide as Hlen; rewrite length_drop, length_app in Hlen; simpl in Hlen.
  - by rewrite full_windows_snoc by lia.
  - rewrite !full_windows_short; rewrite ?length_app; simpl; [done|lia..].
Qed.

(** The steps of an episode before its end: every complete window is
    pushed once, and the deque holds the latest steps. *)
Lemma run_appends_nonterminal b env_id xs :
  0 < num_steps b →
  window b env_id = [] →
  Forall (λ x, is_state_terminal x = false) xs →
  ∃ b', run b (appends env_id xs) = Ok b'
    ∧ memory b' = push_all (memory b) (full_windows (num_steps b) xs)
    ∧ window b' env_id = drop (length xs - num_steps b) xs
    ∧ num_steps b' = num_steps b.
Proof.
  intros Hn Hw. induction xs as [|x xs IH] using rev_ind; intros Hall.
  - exists b. rewrite Hw, full_windows_short, drop_nil by (simpl; lia). done.
  - apply Forall_app in Hall as [Hxs Hx]. rewrite Forall_singleton in Hx.
    destruct (IH Hxs) as (b1 & Hrun & Hmem & Hwin & Hnum).
    unfold appends. rewrite fmap_app, run_app. fold (appends env_id xs).
    rewrite Hrun. cbn [mbind result_bind fmap list_fmap run].
    destruct (step b1 (Append x env_id)) as [b'|err] eqn:Hs;
      [|by rewrite step_spec in Hs].
    exists b'. split; [done|].
    apply step_effect in Hs as (Hm' & Hw' & _ & Hn' & _).
    cbn [op_env step_emits step_window] in *.
    rewrite Hnum, Hwin in *.
    split_and!; [| |congruence].
    + rewrite Hm', Hmem, <- push_all_app. f_equal.
      by apply append_emits_slide.
    + rewrite Hw'. unfold append_window. rewrite Hx, length_app. simpl.
      by apply deque_append_slide.
Qed.

(** An episode's windows, split at step [k]: the complete ones before
    it, then the suffixes of the rest. *)
Lemma sliding_windows_split n k xs :
  k ≤ length xs → length xs ≤ k + n →
  sliding_windows n xs
  = ((λ j, take n (drop j xs)) <$> seq 0 k) ++ suffixes (drop k xs).
Proof.
  intros Hk Hn. unfold sliding_windows, suffixes.
  replace (length xs) with (k + (length xs - k)) at 1 by lia.
  rewrite seq_app, fmap_app. f_equal. simpl.
  rewrite length_drop.
  replace k with (k + 0) at 1 by lia.
  rewrite <- (fmap_add_seq k 0), <- list_fmap_compose.
  apply list_fmap_ext. intros i j Hj.
  apply lookup_seq in Hj as [-> Hlt]. simpl.
  rewrite drop_drop. apply take_ge. rewrite length_drop. lia.
Qed.
Lemma full_windows_prefix n xs ys :
  full_windows n xs
  = (λ j, take n (drop j (xs ++ ys))) <$> seq 0 (length xs + 1 - n).
Proof.
  unfold full_windows. apply list_fmap_ext. intros i j Hj.
  apply lookup_seq in Hj as [-> Hlt]. simpl.
  symmetry. apply take_drop_app_short. lia.
Qed.

Lemma stop_emits_slide n xs :
  0 < n →
  stop_emits n (drop (length xs - n) xs) = suffixes (drop (length xs + 1 - n) xs).
Proof.
  intros Hn. unfold stop_emits. rewrite length_drop.
  destruct (decide (length xs < n)).
  - replace (length xs - n) with 0 by lia.
    replace (length xs + 1 - n) with 0 by lia. simpl.
    repeat case_decide; try done; lia.
  - rewrite decide_False, decide_True by lia.
    rewrite drop_drop. do 2 f_equal. lia.
Qed.

Lemma length_sliding_windows n xs : length (sliding_windows n xs) = length xs.
Proof. unfold sliding_windows. by rewrite length_fmap, length_seq. Qed.

(** X1: a whole episode.  When the steps [xs] and then a terminal step
    [x] are appended for an environment whose deque is empty, the calls
    return and push, in order, one transition for every step of the
    episode: the window of at most [num_steps] steps that starts at that
    step.  The deque is empty again afterwards. *)
Theorem episode_pushes_sliding_windows b env_id xs x :
  0 < num_steps b →
  window b env_id = [] →
  Forall (λ y, is_state_terminal y = false) xs →
  is_state_terminal x = true →
  ∃ b', run b (appends env_id (xs ++ [x])) = Ok b'
    ∧ memory b'
      = foldl RandomAccessQueue.append (memory b)
          (sliding_windows (num_steps b) (xs ++ [x]))
    ∧ length (sliding_windows (num_steps b) (xs ++ [x])) = length xs + 1
    ∧ window b' env_id = [].
Proof.
  intros Hn Hw Hxs Hx.
  destruct (run_appends_nonterminal b env_id xs Hn Hw Hxs)
    as (b1 & Hrun & Hmem & Hwin & Hnum).
  unfold appends. rewrite fmap_app, run_app. fold (appends env_id xs).
  rewrite Hrun. cbn [mbind result_bind fmap list_fmap run].
  destruct (step b1 (Append x env_id)) as [b'|err] eqn:Hs;
    [|by rewrite step_spec in Hs].
  exists b'. split; [done|].
  apply step_effect in Hs as (Hm' & Hw' & _ & _ & _).
  cbn [op_env step_emits step_window] in *. rewrite Hnum, Hwin in *.
  unfold append_emits, append_window in *. rewrite Hx in *.
  rewrite deque_append_slide in Hm' by done.
  split_and!; [|by rewrite length_sliding_windows, length_app; simpl|done].
  rewrite Hm', Hmem. change (foldl _ ?q ?l) with (push_all q l).
  rewrite <- push_all_app. f_equal.
  rewrite (sliding_windows_split _ (length xs + 1 - num_steps b))
    by (rewrite length_app; simpl; lia).
  by rewrite (full_windows_prefix _ xs [x]).
Qed.

(** X2: an episode that is cut off.  When the non-terminal steps [xs] are
    appended for an environment whose deque is empty and the episode is
    then ended by [stop_current_episode], the same transitions are
    pushed as for an episode that ends by itself: one window for every
    step, none of them twice. *)
Theorem stopped_episode_pushes_sliding_windows b env_id xs :
  0 < num_steps b →
  window b env_id = [] →
  Forall (λ y, is_state_terminal y = false) xs →
  ∃ b', run b (appends env_id xs ++ [Stop env_id]) = Ok b'
    ∧ memory b'
      = foldl RandomAccessQueue.append (memory b)
          (sliding_windows (num_steps b) xs)
    ∧ length (sliding_windows (num_steps b) xs) = length xs
    ∧ window b' env_id = [].
Proof.
  intros Hn Hw Hxs.
  destruct (run_appends_nonterminal b env_id xs Hn Hw Hxs)
    as (b1 & Hrun & Hmem & Hwin & Hnum).
  rewrite run_app, Hrun. cbn [mbind result_bind run].
  destruct (step b1 (Stop env_id)) as [b'|err] eqn:Hs;
    [|by rewrite step_spec in Hs].
  exists b'. split; [done|].
  apply step_effect in Hs as (Hm' & Hw' & _ & _ & _).
  cbn [op_env step_emits step_window] in *. rewrite Hnum, Hwin in *.
  rewrite stop_emits_slide in Hm' by done.
  split_and!; [|by rewrite length_sliding_windows|done].
  rewrite Hm', Hmem. change (foldl _ ?q ?l) with (push_all q l).
  rewrite <- push_all_app. f_equal.
  rewrite (sliding_windows_split _ (length xs + 1 - num_steps b)) by lia.
  by rewrite (full_windows_prefix _ xs []), app_nil_r.
Qed.
End episodes.

(** ** What every reachable buffer satisfies *)

Section invariants.
Context {Obs Act Rew Aux : Type}.
Import ReplayBuffer.
#[local] Abbreviation experience := (ReplayBuffer.experience Obs Act Rew Aux).
#[local] Abbreviation stored := (ReplayBuffer.stored Obs Act Rew Aux).
#[local] Abbreviation buffer := (ReplayBuffer.t Obs Act Rew Aux).
#[local] Abbreviation op := (op Obs Act Rew Aux).
Implicit Types (b : buffer) (x : experience) (w xs : list experience)
  (s : stored) (q : RandomAccessQueue.t stored)
  (o : op) (ops : list op) (env_id : Z).

Lemma init_inv cap n b0 :
  init cap n = Ok b0 →
  0 < n ∧ b0 = mk cap n (RandomAccessQueue.init [] cap) ∅.
Proof.
  unfold init, assert_. case_bool_decide; [|done]. by intros [= <-].
Qed.

Lemma Forall_items_append (P : stored → Prop) q s :
  Forall P (RandomAccessQueue.items q) → P s →
  Forall P (RandomAccessQueue.items (RandomAccessQueue.append q s)).
Proof.
  intros Hq Hs. unfold RandomAccessQueue.append. simpl.
  assert (Forall P (RandomAccessQueue.items q ++ [s])) as Hall.
  { apply Forall_app. split; [done|]. by apply Forall_singleton. }
  destruct (RandomAccessQueue.maxlen q); [|done].
  case_decide; [|done]. by apply Forall_drop.
Qed.

Lemma Forall_items_push_all (P : stored → Prop) q (em : list stored) :
  Forall P (RandomAccessQueue.items q) → Forall P em →
  Forall P (RandomAccessQueue.items (push_all q em)).
Proof.
  revert q. induction em as [|s em IH]; intros q Hq Hem; [done|].
  apply Forall_cons in Hem as [Hs Hem].
  apply IH; [|done]. by apply Forall_items_append.
Qed.

(** A property [P] of what the calls push and a property [Q] of the
    deques they leave hold in every buffer that a sequence of calls
    makes from a new one. *)
Lemma run_stored_invariant (P : stored → Prop) (Q : list experience → Prop) n :
  Q [] →
  (∀ w o, 0 < n → Q w → Forall P (step_emits n w o) ∧ Q (step_window n w o)) →
  ∀ cap ops b0 b,
    init cap n = Ok b0 → run b0 ops = Ok b →
    Forall P (RandomAccessQueue.items (memory b)) ∧ ∀ env_id, Q (window b env_id).
Proof.
  intros Hnil Hstep cap ops b0 b [Hn ->]%init_inv Hrun.
  cut (num_steps b = n
       ∧ Forall P (RandomAccessQueue.items (memory b))
       ∧ ∀ env_id, Q (window b env_id)); [tauto|].
  eapply (run_invariant (λ b,
            num_steps b = n
            ∧ Forall P (RandomAccessQueue.items (memory b))
            ∧ ∀ env_id, Q (window b env_id))); [| |exact Hrun].
  - clear -Hstep Hn. intros b o b' (Hnum & Hall & Hwin).
    rewrite step_spec. intros [= <-].
    destruct (Hstep (window b (op_env o)) o Hn (Hwin _)) as [Hem Hw].
    rewrite Hnum. split_and!; [done| |].
    + rewrite memory_after. by apply Forall_items_push_all.
    + intros e. destruct (decide (op_env o = e)) as [<-|Hne].
      * by rewrite window_after.
      * by rewrite window_after_ne.
  - split_and!; [done| |].
    + unfold RandomAccessQueue.init. simpl. destruct cap; simpl; constructor.
    + intros e. unfold window. simpl. by rewrite lookup_empty.
Qed.

Lemma suffixes_lengths_bounded n w :
  length w ≤ n → Forall (λ s : list experience, 1 ≤ length s ≤ n) (suffixes w).
Proof.
  intros Hw. apply Forall_forall. intros s Hs.
  apply list_elem_of_lookup in Hs as [i Hi].
  assert (i < length w) as Hlt.
  { rewrite <- length_suffixes. by eapply lookup_lt_Some. }
  rewrite suffixes_lookup in Hi by done. injection Hi as <-.
  rewrite length_drop. lia.
Qed.

(** X3: in every buffer that calls of [append] and [stop_current_episode]
    make from a new one, whatever its capacity, each stored transition
    holds at least one and at most [num_steps] experiences, and no deque
    holds more than [num_steps]. *)
Theorem stored_lengths_bounded cap n ops (b0 b : buffer) :
  init cap n = Ok b0 →
  run b0 ops = Ok b →
  Forall (λ s, 1 ≤ length s ≤ n) (RandomAccessQueue.items (memory b))
  ∧ ∀ env_id, length (window b env_id) ≤ n.
Proof.
  apply (run_stored_invariant (λ s, 1 ≤ length s ≤ n) (λ w, length w ≤ n));
    [simpl; lia|].
  intros w o Hn Hw. split; [|by apply length_step_window].
  destruct o as [x env_id|env_id]; simpl.
  - unfold append_emits.
    pose proof (length_deque_append n w x Hw Hn) as Hlen.
    destruct (is_state_terminal x).
    + apply suffixes_lengths_bounded. lia.
    + case_decide; [|done]. apply Forall_singleton. lia.
  - unfold stop_emits. repeat case_decide;
      apply suffixes_lengths_bounded; rewrite ?length_drop; lia.
Qed.

Lemma terminal_only_last_drop i s :
  terminal_only_last s → terminal_only_last (drop i s).
Proof.
  unfold terminal_only_last. intros H.
  destruct (decide (i < length s)).
  - rewrite length_drop, take_drop_commute.
    replace (i + (length s - i - 1)) with (length s - 1) by lia.
    by apply Forall_drop.
  - rewrite drop_ge by lia. constructor.
Qed.

Lemma terminal_only_last_nonterminal s :
  Forall (λ x, is_state_terminal x = false) s → terminal_only_last s.
Proof. apply Forall_take. Qed.

Lemma terminal_only_last_snoc w x :
  Forall (λ y, is_state_terminal y = false) w → terminal_only_last (w ++ [x]).
Proof.
  intros H. unfold terminal_only_last. rewrite length_app. simpl.
  replace (length w + 1 - 1) with (length w) by lia.
  by rewrite take_app_length.
Qed.

Lemma terminal_only_last_deque_append n w x :
  Forall (λ y, is_state_terminal y = false) w →
  terminal_only_last (deque_append n w x).
Proof.
  intros H. unfold deque_append. case_decide.
  - by apply terminal_only_last_drop, terminal_only_last_snoc.
  - by apply terminal_only_last_snoc.
Qed.

Lemma Forall_suffixes (P : stored → Prop) w :
  (∀ i, P (drop i w)) → Forall P (suffixes w).
Proof.
  intros H. unfold suffixes. apply Forall_fmap, Forall_forall.
  intros i _. apply H.
Qed.

(** X4: a stored transition never runs over the end of an episode.  In
    every buffer that calls of [append] and [stop_current_episode] make
    from a new one, only the last experience of a stored transition can
    be terminal, and no experience waiting in a deque is terminal. *)
Theorem stored_terminal_only_last cap n ops (b0 b : buffer) :
  init cap n = Ok b0 →
  run b0 ops = Ok b →
  Forall terminal_only_last (RandomAccessQueue.items (memory b))
  ∧ ∀ env_id, Forall (λ x, is_state_terminal x = false) (window b env_id).
Proof.
  apply (run_stored_invariant terminal_only_last
           (Forall (λ x, is_state_terminal x = false))); [constructor|].
  intros w o Hn Hw. destruct o as [x env_id|env_id]; simpl.
  - unfold append_emits, append_window.
    destruct (is_state_terminal x) eqn:Hx.
    + split; [|constructor]. apply Forall_suffixes. intros i.
      by apply terminal_only_last_drop, terminal_only_last_deque_append.
    + split.
      * case_decide; [|constructor]. apply Forall_singleton.
        by apply terminal_only_last_deque_append.
      * unfold deque_append.
        assert (Forall (λ y, is_state_terminal y = false) (w ++ [x])) as Hall.
        { apply Forall_app. split; [done|]. by apply Forall_singleton. }
        case_decide; [by apply Forall_drop|done].
  - split; [|constructor]. unfold stop_emits.
    repeat case_decide; apply Forall_suffixes; intros i;
      apply terminal_only_last_nonterminal; repeat apply Forall_drop; done.
Qed.

Lemma length_items_append q s :
  length (RandomAccessQueue.items q)
  ≤ length (RandomAccessQueue.items (RandomAccessQueue.append q s)).
Proof.
  unfold RandomAccessQueue.append. simpl.
  destruct (RandomAccessQueue.maxlen q);
    repeat case_decide; rewrite ?length_drop, ?length_app; simpl; lia.
Qed.

Lemma length_items_push_all q (em : list stored) :
  length (RandomAccessQueue.items q)
  ≤ length (RandomAccessQueue.items (push_all q em)).
Proof.
  revert q. induction em as [|s em IH]; intros q; [done|].
  etrans; [apply (length_items_append q s)|apply IH].
Qed.

(** the number of stored transitions never goes down.  Whatever the
    calls of [append] and [stop_current_episode], and whether or not
    the queue is at its bound, [len] after the calls is at least [len]
    before them. *)
Lemma len_never_decreases b ops b' :
  run b ops = Ok b' → len b ≤ len b'.
Proof.
  apply (run_invariant (λ b', len b ≤ len b')); [|done].
  clear. intros b1 o b2 Hle. rewrite step_spec. intros [= <-].
  etrans; [exact Hle|]. unfold len, RandomAccessQueue.len.
  rewrite memory_after. apply length_items_push_all.
Qed.

(** Two buffers with the same [num_steps] and the same deque for
    [env_id]: the calls for [env_id] alone leave the same deque as all
    the calls. *)
Lemma run_window_projection env_id ops : ∀ b c,
  num_steps b = num_steps c →
  window b env_id = window c env_id →
  ∃ b' c',
    run b ops = Ok b'
    ∧ run c (filter (λ o, op_env o = env_id) ops) = Ok c'
    ∧ num_steps b' = num_steps c'
    ∧ window b' env_id = window c' env_id.
Proof.
  induction ops as [|o ops IH]; intros b c Hn Hw.
  - by exists b, c.
  - cbn [run]. rewrite step_spec. cbn [mbind result_bind].
    destruct (decide (op_env o = env_id)) as [He|He].
    + rewrite filter_cons_True by done. cbn [run].
      rewrite step_spec. cbn [mbind result_bind].
      apply IH; [done|]. rewrite He, !window_after. by rewrite Hn, Hw.
    + rewrite filter_cons_False by done.
      apply IH; [done|]. by rewrite window_after_ne.
Qed.

(** X5: environments do not disturb each other.  The deque that a
    sequence of calls leaves for an environment is the one that the
    calls for this environment alone leave; calls for other
    environments in between change nothing of it. *)
Theorem windows_independent b ops env_id :
  ∃ b1 b2,
    run b ops = Ok b1
    ∧ run b (filter (λ o, op_env o = env_id) ops) = Ok b2
    ∧ window b1 env_id = window b2 env_id.
Proof.
  destruct (run_window_projection env_id ops b b eq_refl eq_refl)
    as (b1 & b2 & H1 & H2 & _ & Hw).
  by exists b1, b2.
Qed.

Lemma stop_on_empty_entry b env_id :
  last_n_transitions b !! env_id = Some [] →
  stop_current_episode b env_id = Ok b.
Proof.
  intros H. rewrite stop_current_episode_spec. f_equal.
  unfold window. rewrite H. simpl.
  assert (stop_emits (num_steps b) (@nil experience) = []) as ->.
  { unfold stop_emits. simpl. repeat case_decide; done. }
  unfold after, set_window, set_memory. destruct b as [c n m wins]. simpl in *.
  f_equal. by apply insert_id.
Qed.

(** X6: ending an episode twice.  Once an episode has ended, by a
    terminal [append] or by [stop_current_episode], a further
    [stop_current_episode] for the same environment returns and changes
    nothing: no transition is pushed a second time. *)
Theorem stop_after_episode_end_changes_nothing b env_id x b' :
  (stop_current_episode b env_id = Ok b' →
     stop_current_episode b' env_id = Ok b')
  ∧ (is_state_terminal x = true → append_exp b x env_id = Ok b' →
       stop_current_episode b' env_id = Ok b').
Proof.
  split.
  - rewrite stop_current_episode_spec. intros [= <-].
    apply stop_on_empty_entry. unfold after. simpl. apply lookup_insert_eq.
  - intros Hx. rewrite append_exp_spec. intros [= <-].
    apply stop_on_empty_entry. unfold after, append_window. rewrite Hx. simpl.
    apply lookup_insert_eq.
Qed.

(** X7: with [num_steps = 1] the buffer is a plain one-step replay
    buffer.  Every [append], terminal or not, pushes exactly the one
    transition [[x]] that holds the new experience alone, and leaves a
    deque of at most one experience. *)
Theorem one_step_replay b x env_id :
  num_steps b = 1 →
  length (window b env_id) ≤ 1 →
  ∃ b', append_exp b x env_id = Ok b'
    ∧ memory b' = RandomAccessQueue.append (memory b) [x]
    ∧ length (window b' env_id) ≤ 1.
Proof.
  intros Hn Hw. eexists. split; [apply append_exp_spec|].
  rewrite window_after, memory_after, Hn.
  assert (deque_append 1 (window b env_id) x = [x]) as Hd.
  { destruct (window b env_id) as [|y [|z w]]; simpl in *; done || lia. }
  unfold append_emits, append_window. rewrite Hd.
  destruct (is_state_terminal x); simpl; split; done || lia.
Qed.

(** X8: [__init__] refuses an integer [num_steps] by its [assert]
    exactly when it is zero or negative; for every positive [num_steps]
    and every capacity it makes a buffer with that [num_steps] that
    stores nothing, has no pending experience for any environment, and
    from which [sample] can only draw nothing. *)
Theorem init_empty_or_refused cap (n : Z) :
  ((init_int cap n : result buffer) = Raise AssertionError ↔ (n ≤ 0)%Z)
  ∧ ((0 < n)%Z →
       ∃ b : buffer, init_int cap n = Ok b
         ∧ capacity b = cap ∧ Z.of_nat (num_steps b) = n
         ∧ len b = 0
         ∧ (∀ env_id, window b env_id = [])
         ∧ ∀ rng k, 0 < k → sample rng b k = Raise AssertionError).
Proof.
  assert ((0 < n)%Z →
          (init_int cap n : result buffer)
          = Ok (mk cap (Z.to_nat n) (RandomAccessQueue.init [] cap) ∅)) as Hinit.
  { intros Hn. unfold init_int, assert_.
    rewrite bool_decide_eq_true_2 by done. cbn [mbind result_bind].
    apply init_spec. lia. }
  split.
  - split.
    + intros Hraise. destruct (decide (0 < n)%Z) as [Hn|Hn]; [|lia].
      by rewrite Hinit in Hraise.
    + intros Hn. unfold init_int, assert_.
      by rewrite bool_decide_eq_false_2 by lia.
  - intros Hn. rewrite Hinit by done. eexists. split; [done|].
    assert (len (mk cap (Z.to_nat n) (RandomAccessQueue.init [] cap) ∅ : buffer)
            = 0) as Hlen.
    { unfold len, RandomAccessQueue.len. simpl. by destruct cap. }
    split_and!; try done.
    + simpl. lia.
    + intros rng k Hk. unfold sample, assert_. fold (len (mk cap (Z.to_nat n)
        (RandomAccessQueue.init [] cap) ∅ : buffer)). rewrite Hlen.
      by rewrite bool_decide_eq_false_2 by lia.
Qed.
End invariants.


(** ** More on loading *)

Section loading.
Context {Obs Act Rew Aux : Type}.
Import ReplayBuffer.
#[local] Abbreviation stored := (ReplayBuffer.stored Obs Act Rew Aux).
#[local] Abbreviation obj := (ReplayBuffer.obj Obs Act Rew Aux).
#[local] Abbreviation file := (ReplayBuffer.file Obs Act Rew Aux).
Implicit Types (fs : gmap string file) (filename : string).

(** X9: a file of version 0.2.  When the file holds a pickled
    [collections.deque] (whose length respects its [maxlen], as that of
    every deque does), [load] returns with [self.memory] bound to a
    [RandomAccessQueue] that has the items of the deque in their order
    and the [maxlen] of the deque; the other attributes stay. *)
Theorem load_legacy_deque {M} (b' : obj M) fs filename (d : list stored) m :
  fs !! filename = Some (Pickle (PyDeque d m)) →
  match m with Some k => length d ≤ k | None => True end →
  ∃ q, load b' fs filename = Ok (set_memory b' (PyRandomAccessQueue q))
    ∧ RandomAccessQueue.items q = d
    ∧ RandomAccessQueue.maxlen q = m
    ∧ bounded q.
Proof.
  intros Hf Hd. exists (RandomAccessQueue.init d m).
  split; [by apply load_pickled_deque|].
  split_and!; [|done|apply bounded_init].
  unfold RandomAccessQueue.init. simpl. destruct m as [k|]; [|done]. simpl.
  by replace (length d - k) with 0 by lia.
Qed.
End loading.

(** ** [FrameSkip] *)

Section frame_skip_facts.
Import EnvWrappers.
Context {St Action Ob Rw Info : Type}.
Context (env_step : St → Action → St * (Ob * Rw * bool * Info)).
Context (zero : Rw) (add : Rw → Rw → Rw).
Implicit Types (s : St) (a : Action) (r : Ob * Rw * bool * Info)
  (rs : list (Ob * Rw * bool * Info)).

Lemma skip_loop_spec k : ∀ s a total bound,
  0 < k →
  ∃ m s' rs r,
    1 ≤ m ≤ k
    ∧ env_steps env_step m s a = (s', rs)
    ∧ last rs = Some r
    ∧ skip_loop env_step add k s a total bound
      = (s', foldl add total (reward_of <$> rs), Some (r.1.1.1, done_of r, r.2))
    ∧ Forall (λ r', done_of r' = false) (take (m - 1) rs)
    ∧ (done_of r = false → m = k).
Proof.
  induction k as [|k IH]; intros s a total bound Hk; [lia|].
  cbn [skip_loop]. destruct (env_step s a) as [s1 [[[obs reward] done] info]] eqn:Hstep.
  destruct done.
  - exists 1, s1, [(obs, reward, true, info)], (obs, reward, true, info).
    cbn [env_steps]. rewrite Hstep. simpl.
    split_and!; first [done | lia | constructor].
  - destruct k as [|k].
    + exists 1, s1, [(obs, reward, false, info)], (obs, reward, false, info).
      cbn [env_steps skip_loop]. rewrite Hstep. simpl.
      split_and!; first [done | lia | constructor].
    + destruct (IH s1 a (add total reward) (Some (obs, false, info)))
        as (m & s' & rs & r & Hm & Hsteps & Hlast & Hloop & Hnot & Hend); [lia|].
      exists (S m), s', ((obs, reward, false, info) :: rs), r.
      split_and!; try lia.
      * cbn [env_steps]. by rewrite Hstep, Hsteps.
      * destruct rs; [done|]. done.
      * rewrite Hloop. done.
      * replace (S m - 1) with (S (m - 1)) by lia. simpl.
        constructor; done.
      * intros Hr. rewrite (Hend Hr). done.
Qed.

(** X11: what one step of the wrapper does.  For [skip >= 1] the wrapper
    steps the environment with the same action until it reports [done]
    or [skip] steps are made, whichever comes first; it returns the
    observation, [done] and [info] of the last of these steps and the
    rewards of all of them, added in order onto [0.0]. *)
Theorem frame_skip_step_spec (skip : Z) s a :
  (0 < skip)%Z →
  ∃ m s' rs r,
    1 ≤ m ≤ Z.to_nat skip
    ∧ env_steps env_step m s a = (s', rs)
    ∧ last rs = Some r
    ∧ frame_skip_step env_step zero add skip s a
      = Return (s', (r.1.1.1, foldl add zero (reward_of <$> rs), done_of r, r.2))
    ∧ Forall (λ r', done_of r' = false) (take (m - 1) rs)
    ∧ (done_of r = false → m = Z.to_nat skip).
Proof.
  intros Hskip.
  destruct (skip_loop_spec (Z.to_nat skip) s a zero None)
    as (m & s' & rs & r & Hm & Hsteps & Hlast & Hloop & Hnot & Hend); [lia|].
  exists m, s', rs, r. split_and!; try done; try lia.
  unfold frame_skip_step. by rewrite Hloop.
Qed.

(** X12: [skip <= 0].  The loop body never runs, so [obs] is read before
    it is assigned: [step] raises [UnboundLocalError] exactly when
    [skip <= 0].  For every [skip >= 1] it returns. *)
Theorem frame_skip_raises_iff (skip : Z) s a :
  (frame_skip_step env_step zero add skip s a = Throw UnboundLocalError
     ↔ (skip ≤ 0)%Z)
  ∧ ((0 < skip)%Z → ∃ v, frame_skip_step env_step zero add skip s a = Return v).
Proof.
  assert ((0 < skip)%Z →
          ∃ v, frame_skip_step env_step zero add skip s a = Return v) as Hret.
  { intros Hskip.
    destruct (skip_loop_spec (Z.to_nat skip) s a zero None)
      as (m & s' & rs & r & _ & _ & _ & Hloop & _); [lia|].
    unfold frame_skip_step. rewrite Hloop. by eexists. }
  split; [|done]. split.
  - intros Hraise. destruct (decide (0 < skip)%Z) as [Hpos|]; [|lia].
    destruct (Hret Hpos) as [v Hv]. by rewrite Hv in Hraise.
  - intros Hskip. unfold frame_skip_step.
    by replace (Z.to_nat skip) with 0 by lia.
Qed.
End frame_skip_facts.

(** ** [SerialDiscreteCombineActionWrapper] *)

Section serial_facts.
Import EnvWrappers.
Implicit Types (spaces : gmap string space) (w : serial) (d : odict).

(** [__init__] returns exactly when the five keys other than the camera
    are [Discrete] spaces of the wrapped space, and then the actions are
    [serial_actions]. *)
Lemma serial_init_inv spaces w :
  serial_init spaces = Return w →
  ∃ n1 n2 n3 n4 n5,
    spaces !! "forward_back" = Some (Discrete n1)
    ∧ spaces !! "left_right" = Some (Discrete n2)
    ∧ spaces !! "jump" = Some (Discrete n3)
    ∧ spaces !! "sneak_sprint" = Some (Discrete n4)
    ∧ spaces !! "attack_place_equip_craft_nearbyCraft_nearbySmelt"
      = Some (Discrete n5)
    ∧ w = mk_serial (serial_actions n1 n2 n3 n4 n5)
            (Z.of_nat (length (serial_actions n1 n2 n3 n4 n5))).
Proof.
  unfold serial_init. cbn [fmap list_fmap noop fst build_actions].
  unfold key_actions.
  repeat match goal with
         | |- context [decide (?a = ?b)] =>
             first [rewrite (decide_True (P:=a = b)) by done
                   |rewrite (decide_False (P:=a = b)) by done]
         end.
  destruct (spaces !! "forward_back") as [[n1|]|]; [|done..].
  destruct (spaces !! "left_right") as [[n2|]|]; [|done..].
  destruct (spaces !! "jump") as [[n3|]|]; [|done..].
  destruct (spaces !! "sneak_sprint") as [[n4|]|]; [|done..].
  cbn [mbind res_bind].
  destruct (spaces !! "attack_place_equip_craft_nearbyCraft_nearbySmelt")
    as [[n5|]|]; [|done..].
  cbn [mbind res_bind mret res_ret]. intros [= <-].
  exists n1, n2, n3, n4, n5. split_and!; try done.
  unfold serial_actions, one_key. rewrite <- !app_assoc. done.
Qed.
Lemma serial_init_ok spaces n1 n2 n3 n4 n5 :
  spaces !! "forward_back" = Some (Discrete n1) →
  spaces !! "left_right" = Some (Discrete n2) →
  spaces !! "jump" = Some (Discrete n3) →
  spaces !! "sneak_sprint" = Some (Discrete n4) →
  spaces !! "attack_place_equip_craft_nearbyCraft_nearbySmelt"
    = Some (Discrete n5) →
  serial_init spaces
  = Return (mk_serial (serial_actions n1 n2 n3 n4 n5)
              (Z.of_nat (length (serial_actions n1 n2 n3 n4 n5)))).
Proof.
  intros H1 H2 H3 H4 H5.
  unfold serial_init. cbn [fmap list_fmap noop fst build_actions].
  unfold key_actions.
  repeat match goal with
         | |- context [decide (?a = ?b)] =>
             first [rewrite (decide_True (P:=a = b)) by done
                   |rewrite (decide_False (P:=a = b)) by done]
         end.
  rewrite H1, H2, H3, H4, H5. cbn [mbind res_bind mret res_ret].
  unfold serial_actions, one_key. rewrite <- !app_assoc. done.
Qed.

Ltac solve_pressed :=
  unfold pressed; cbn [od_set noop];
  repeat match goal with
         | |- context [decide (?a = ?b)] =>
             first [rewrite (decide_True (P:=a = b)) by done
                   |rewrite (decide_False (P:=a = b)) by done]
         end;
  repeat first
    [ rewrite filter_cons_False by (simpl; intros [? ?]; congruence)
    | rewrite filter_cons_True by (simpl; split; intros ?; simplify_eq; lia) ];
  rewrite ?filter_nil; done.

Lemma pressed_noop : pressed noop = [].
Proof. reflexivity. Qed.

Lemma pressed_one_key key n :
  key ∈ [ "forward_back"; "left_right"; "jump"; "sneak_sprint";
          "attack_place_equip_craft_nearbyCraft_nearbySmelt" ] →
  pressed <$> one_key key n = (λ a, [(key, Int a)]) <$> seqZ 1 (n - 1).
Proof.
  intros Hkey. unfold one_key. rewrite <- list_fmap_compose.
  apply list_fmap_ext. intros i a Ha. apply lookup_seqZ in Ha as [-> Hi].
  simpl. set (a := (1 + Z.of_nat i)%Z). assert (1 ≤ a)%Z as Ha by lia.
  clearbody a.
  repeat (apply elem_of_cons in Hkey as [->|Hkey]; [solve_pressed|]).
  by apply elem_of_nil in Hkey.
Qed.
Lemma od_set_keys d key v : key ∈ d.*1 → (od_set d key v).*1 = d.*1.
Proof.
  induction d as [|[k' v'] d IH]; intros Hin; [by apply elem_of_nil in Hin|].
  cbn [od_set]. destruct (decide (k' = key)) as [->|Hne]; [done|].
  rewrite !fmap_cons. f_equal. apply IH.
  rewrite fmap_cons in Hin. apply elem_of_cons in Hin as [?|?]; [|done].
  simpl in *. congruence.
Qed.

Lemma serial_actions_keys n1 n2 n3 n4 n5 :
  Forall (λ d, d.*1 = noop.*1) (serial_actions n1 n2 n3 n4 n5).
Proof.
  assert (∀ key n, key ∈ noop.*1 → Forall (λ d, d.*1 = noop.*1) (one_key key n))
    as Hone.
  { intros key n Hkey. unfold one_key. apply Forall_fmap, Forall_forall.
    intros a _. by apply od_set_keys. }
  unfold serial_actions. repeat (apply Forall_app; split);
    try (apply Hone; set_solver); repeat constructor.
Qed.

Lemma pressed_serial_actions n1 n2 n3 n4 n5 :
  pressed <$> serial_actions n1 n2 n3 n4 n5 = [] :: serial_pressed n1 n2 n3 n4 n5.
Proof.
  unfold serial_actions, serial_pressed.
  rewrite !fmap_app, !pressed_one_key by set_solver. done.
Qed.

Lemma serial_pressed_lengths n1 n2 n3 n4 n5 :
  Forall (λ l, length l = 1) (serial_pressed n1 n2 n3 n4 n5).
Proof.
  unfold serial_pressed. repeat (apply Forall_app; split);
    try (apply Forall_fmap, Forall_forall; by intros); repeat constructor.
Qed.

#[local] Set Warnings "-clear-no-such-hyp".

Lemma NoDup_serial_pressed n1 n2 n3 n4 n5 :
  NoDup ([] :: serial_pressed n1 n2 n3 n4 n5).
Proof.
  assert (∀ (key : string) n, NoDup ((λ a, [(key, Int a)]) <$> seqZ 1 n))
    as Hone.
  { intros key n. apply NoDup_fmap_2; [|apply NoDup_seqZ]. by intros a a' [=]. }
  apply NoDup_cons. split.
  - intros Hin. pose proof (serial_pressed_lengths n1 n2 n3 n4 n5) as Hlen.
    rewrite Forall_forall in Hlen. by apply Hlen in Hin.
  - unfold serial_pressed.
    repeat (apply NoDup_app; split_and!; [apply Hone| |]);
      try (intros l (a & -> & _)%list_elem_of_fmap; set_unfold; naive_solver).
    apply NoDup_app. split_and!.
    + apply NoDup_cons. split; [set_unfold; naive_solver|].
      apply NoDup_singleton.
    + set_unfold; naive_solver.
    + apply Hone.
Qed.

Lemma NoDup_serial_actions n1 n2 n3 n4 n5 :
  NoDup (serial_actions n1 n2 n3 n4 n5).
Proof.
  apply (NoDup_fmap_1 pressed). rewrite pressed_serial_actions.
  apply NoDup_serial_pressed.
Qed.

Lemma length_serial_actions n1 n2 n3 n4 n5 :
  Z.of_nat (length (serial_actions n1 n2 n3 n4 n5))
  = (3 + 0 `max` (n1 - 1) + 0 `max` (n2 - 1) + 0 `max` (n3 - 1)
       + 0 `max` (n4 - 1) + 0 `max` (n5 - 1))%Z.
Proof.
  unfold serial_actions, one_key.
  rewrite !length_app, !length_fmap, !length_seqZ. simpl. lia.
Qed.
(** X13: when the wrapper can be built.  [__init__] returns exactly when
    the wrapped action space has a [Discrete] space under each of the
    five keys other than the camera.  The number of discrete actions is
    then 3, for doing nothing and the two camera turns, plus [n - 1] for
    every key with [n >= 1] values. *)
Theorem serial_init_returns_iff spaces :
  ((∃ w, serial_init spaces = Return w)
     ↔ ∀ key, key ∈ noop.*1 → key ≠ "camera" →
         ∃ n, spaces !! key = Some (Discrete n))
  ∧ (∀ w, serial_init spaces = Return w →
       ∃ n1 n2 n3 n4 n5,
         spaces !! "forward_back" = Some (Discrete n1)
         ∧ spaces !! "left_right" = Some (Discrete n2)
         ∧ spaces !! "jump" = Some (Discrete n3)
         ∧ spaces !! "sneak_sprint" = Some (Discrete n4)
         ∧ spaces !! "attack_place_equip_craft_nearbyCraft_nearbySmelt"
           = Some (Discrete n5)
         ∧ action_space_n w
           = (3 + 0 `max` (n1 - 1) + 0 `max` (n2 - 1) + 0 `max` (n3 - 1)
                + 0 `max` (n4 - 1) + 0 `max` (n5 - 1))%Z
         ∧ Z.of_nat (length (_actions w)) = action_space_n w).
Proof.
  split; [split|].
  - intros [w (n1 & n2 & n3 & n4 & n5 & H1 & H2 & H3 & H4 & H5 & _)%serial_init_inv].
    intros key Hkey Hcam. cbn in Hkey.
    repeat (apply elem_of_cons in Hkey as [->|Hkey]; [by eauto|]).
    by apply elem_of_nil in Hkey.
  - intros Hall.
    destruct (Hall "forward_back") as [n1 H1]; [set_solver|done|].
    destruct (Hall "left_right") as [n2 H2]; [set_solver|done|].
    destruct (Hall "jump") as [n3 H3]; [set_solver|done|].
    destruct (Hall "sneak_sprint") as [n4 H4]; [set_solver|done|].
    destruct (Hall "attack_place_equip_craft_nearbyCraft_nearbySmelt")
      as [n5 H5]; [set_solver|done|].
    eexists. by apply (serial_init_ok spaces n1 n2 n3 n4 n5).
  - intros w (n1 & n2 & n3 & n4 & n5 & H1 & H2 & H3 & H4 & H5 & ->)%serial_init_inv.
    exists n1, n2, n3, n4, n5. split_and!; try done.
    apply length_serial_actions.
Qed.

(** X14: what [action] returns.  On a wrapper that [__init__] has built,
    [action] raises [ValueError] exactly for the integers outside
    [0 .. n - 1]; inside, it returns an action with the keys of [noop]
    in their order, which is [noop] for 0 and otherwise has exactly one
    entry that is not at rest.  It never raises [IndexError]. *)
Theorem serial_action_spec spaces w (a : Z) :
  serial_init spaces = Return w →
  (3 ≤ action_space_n w)%Z
  ∧ (serial_action w a = Throw ValueError ↔ ¬ (0 ≤ a < action_space_n w)%Z)
  ∧ ((0 ≤ a < action_space_n w)%Z →
       ∃ d, serial_action w a = Return d
         ∧ d.*1 = noop.*1
         ∧ (a = 0%Z → d = noop)
         ∧ ((0 < a)%Z → length (pressed d) = 1)).
Proof.
  intros (n1 & n2 & n3 & n4 & n5 & _ & _ & _ & _ & _ & ->)%serial_init_inv.
  unfold serial_action. cbn [action_space_n _actions].
  set (acts := serial_actions n1 n2 n3 n4 n5).
  assert (3 ≤ Z.of_nat (length acts))%Z as Hthree.
  { unfold acts. rewrite length_serial_actions. lia. }
  assert (∀ a, (0 ≤ a < Z.of_nat (length acts))%Z →
          ∃ d, acts !! Z.to_nat a = Some d) as Hin.
  { intros a' Ha'. apply lookup_lt_is_Some_2. lia. }
  split; [done|]. split.
  - case_decide as Ha; [|done]. destruct (Hin a Ha) as [d ->]. split; [done|tauto].
  - intros Ha. rewrite decide_True by done. destruct (Hin a Ha) as [d Hd].
    rewrite Hd. exists d. split_and!; [done| | |].
    + pose proof (serial_actions_keys n1 n2 n3 n4 n5) as Hkeys.
      rewrite Forall_forall in Hkeys. apply Hkeys.
      by eapply list_elem_of_lookup_2.
    + intros ->. simpl in Hd. by injection Hd as <-.
    + intros Hpos.
      assert ((pressed <$> acts) !! Z.to_nat a = Some (pressed d)) as Hp.
      { by rewrite list_lookup_fmap, Hd. }
      unfold acts in Hp. rewrite pressed_serial_actions in Hp.
      destruct (Z.to_nat a) as [|i] eqn:Hi; [lia|]. simpl in Hp.
      pose proof (serial_pressed_lengths n1 n2 n3 n4 n5) as Hlen.
      rewrite Forall_forall in Hlen. apply Hlen.
      by eapply list_elem_of_lookup_2.
Qed.

(** X15: different discrete actions are different actions of the wrapped
    environment.  If [action] returns the same dictionary for two
    integers, the integers are equal. *)
Theorem serial_action_injective spaces w (a a' : Z) d :
  serial_init spaces = Return w →
  serial_action w a = Return d →
  serial_action w a' = Return d →
  a = a'.
Proof.
  intros (n1 & n2 & n3 & n4 & n5 & _ & _ & _ & _ & _ & ->)%serial_init_inv.
  unfold serial_action. cbn [action_space_n _actions].
  repeat case_decide; try done.
  destruct (_ !! Z.to_nat a) as [d1|] eqn:H1; [|done].
  destruct (_ !! Z.to_nat a') as [d2|] eqn:H2; [|done].
  intros [= ->] [= ->].
  pose proof (NoDup_lookup _ _ _ _ (NoDup_serial_actions n1 n2 n3 n4 n5) H1 H2).
  lia.
Qed.
End serial_facts.

(** ** [SerialDiscreteActionWrapper] *)

Section discrete_facts.
Import EnvWrappers.
#[local] Set Warnings "-clear-no-such-hyp".
Implicit Types (spaces : gmap string space) (w : discrete) (d : odict)
  (key : string) (keys : list string).

Lemma od_get_set d key key' v :
  od_get (od_set d key v) key'
  = if decide (key = key') then Some v else od_get d key'.
Proof.
  induction d as [|[k0 v0] d IH]; cbn [od_set od_get].
  - done.
  - destruct (decide (k0 = key)) as [->|Hne]; cbn [od_get].
    + by repeat case_decide.
    + rewrite IH. repeat case_decide; congruence.
Qed.

Lemma press_keys_spec keys : ∀ n0 n1,
  press_keys keys n0 = Return n1 →
  Forall (λ key, key ∈ BINARY_KEYS) keys
  ∧ (∀ key, key ∈ keys → od_get n1 key = Some (Int 1))
  ∧ (∀ key, od_get n0 key = Some (Int 1) → od_get n1 key = Some (Int 1)).
Proof.
  induction keys as [|k keys IH]; intros n0 n1; cbn [press_keys].
  - intros [= <-]. split_and!; [constructor| |done].
    by intros key ?%elem_of_nil.
  - case_decide as Hbin; [|done]. intros (Hall & Hin & Hkeep)%IH.
    split_and!.
    + by constructor.
    + intros key [->|Hkey]%elem_of_cons; [|by apply Hin].
      apply Hkeep. rewrite od_get_set. by rewrite decide_True.
    + intros key Hkey. apply Hkeep. rewrite od_get_set.
      case_decide; [done|]. done.
Qed.

Lemma discrete_build_Forall (P : odict → Prop) spaces ak rk ek n0 keys :
  (∀ key ops, discrete_key_actions spaces ak rk ek n0 key = Return ops →
     Forall P ops) →
  ∀ acc acts,
    discrete_build spaces ak rk ek n0 keys acc = Return acts →
    Forall P acc → Forall P acts.
Proof.
  intros Hkey. induction keys as [|key keys IH]; intros acc acts;
    cbn [discrete_build].
  - by intros [= <-].
  - destruct (discrete_key_actions spaces ak rk ek n0 key) as [ops|] eqn:Hops;
      [|done]. cbn [mbind res_bind]. intros Hb Hacc.
    eapply IH; [done|]. apply Forall_app. split; [done|]. by eapply Hkey.
Qed.

(** The actions that one key contributes leave the always-pressed and
    the excluded keys as [noop] has them. *)
Lemma discrete_key_actions_fixed spaces ak rk ek n0 key ops key' :
  discrete_key_actions spaces ak rk ek n0 key = Return ops →
  key' ∈ ak ∨ key' ∈ ek →
  Forall (λ d, od_get d key' = od_get n0 key') ops.
Proof.
  unfold discrete_key_actions. intros Hops Hfixed.
  case_decide as Hskip; [by injection Hops as <-|].
  assert (key ≠ key') as Hne by (intros ->; tauto).
  assert (∀ v, od_get (od_set n0 key v) key' = od_get n0 key') as Hset.
  { intros v. rewrite od_get_set. by rewrite decide_False. }
  repeat case_decide; try (injection Hops as <-); repeat constructor; try done.
  destruct (spaces !! key) as [[n|]|]; try done. injection Hops as <-.
  apply Forall_fmap, Forall_forall. intros a _. apply Hset.
Qed.

Lemma discrete_init_inv spaces ak rk ek en w :
  discrete_init spaces ak rk ek en = Return w →
  ∃ n1 acts,
    always_keys w = default [] ak
    ∧ reverse_keys w = default [] rk
    ∧ exclude_keys w = default [] ek
    ∧ exclude_noop w = en
    ∧ size (list_to_set (default [] ak) ∪ list_to_set (default [] rk)
            ∪ list_to_set (default [] ek) : gset string)
      = length (default [] ak) + length (default [] rk) + length (default [] ek)
    ∧ dom spaces ⊆ list_to_set _noop_template.*1
    ∧ press_keys (default [] ak)
        (drop_missing spaces _noop_template.*1 _noop_template) = Return n1
    ∧ press_keys (default [] rk) n1 = Return (d_noop w)
    ∧ Forall (λ key, key ∈ (d_noop w).*1) (default [] ek)
    ∧ discrete_build spaces (default [] ak) (default [] rk) (default [] ek)
        (d_noop w) (d_noop w).*1 [d_noop w] = Return acts
    ∧ d_actions w = (if en then drop 1 acts else acts)
    ∧ d_action_space_n w = Z.of_nat (length (d_actions w)).
Proof.
  unfold discrete_init.
  case_decide as Hsize; [done|]. case_decide as Hdom; [|done].
  destruct (press_keys (default [] ak) _) as [n1|] eqn:H1; [|done].
  cbn [mbind res_bind].
  destruct (press_keys (default [] rk) n1) as [n2|] eqn:H2; [|done].
  cbn [mbind res_bind]. case_decide as Hex; [|done].
  destruct (discrete_build _ _ _ _ n2 _ _) as [acts|] eqn:Hb; [|done].
  cbn [mbind res_bind mret res_ret]. intros [= <-]. simpl.
  exists n1, acts. split_and!; done || lia.
Qed.

(** X16: the keys that are held and the keys that are left out.  In every
    discrete action of a wrapper that [__init__] has built, each of the
    [always_keys] has the value 1 and each of the [exclude_keys] has the
    value it has in [noop]; and [noop] has the value 1 for each of the
    [reverse_keys]. *)
Theorem discrete_fixed_keys spaces ak rk ek en w d key :
  discrete_init spaces ak rk ek en = Return w →
  d ∈ d_actions w →
  (key ∈ always_keys w → od_get d key = Some (Int 1))
  ∧ (key ∈ exclude_keys w → od_get d key = od_get (d_noop w) key)
  ∧ (key ∈ reverse_keys w → od_get (d_noop w) key = Some (Int 1)).
Proof.
  intros (n1 & acts & -> & -> & -> & _ & _ & _ & H1 & H2 & _ & Hb & Hacts & _)
    %discrete_init_inv Hd.
  apply press_keys_spec in H1 as (_ & Hin1 & _).
  apply press_keys_spec in H2 as (_ & Hin2 & Hkeep2).
  assert (d ∈ acts) as Hd'.
  { rewrite Hacts in Hd. destruct en; [|done].
    by eapply subseteq_drop. }
  assert (key ∈ default [] ak ∨ key ∈ default [] ek →
          od_get d key = od_get (d_noop w) key) as Hfix.
  { intros Hkey.
    pose proof (discrete_build_Forall
      (λ d, od_get d key = od_get (d_noop w) key) spaces _ _ _ _ _
      (λ k ops Hops, discrete_key_actions_fixed _ _ _ _ _ _ _ _ Hops Hkey)
      _ _ Hb) as Hall.
    specialize (Hall ltac:(by apply Forall_singleton)).
    rewrite Forall_forall in Hall. by apply Hall. }
  split_and!.
  - intros Hkey. rewrite Hfix by tauto. apply Hkeep2. by apply Hin1.
  - intros Hkey. apply Hfix. tauto.
  - apply Hin2.
Qed.
Lemma size_list_to_set_le keys :
  size (list_to_set keys : gset string) ≤ length keys.
Proof.
  induction keys as [|k keys IH]; [done|].
  rewrite list_to_set_cons, size_union_alt, size_singleton. simpl.
  assert (size (list_to_set keys ∖ {[k]} : gset string)
          ≤ size (list_to_set keys : gset string)); [|lia].
  apply subseteq_size. set_solver.
Qed.

(** A list has as many different elements as it is long only when it
    has no element twice. *)
Lemma size_list_to_set_NoDup keys :
  size (list_to_set keys : gset string) = length keys → NoDup keys.
Proof.
  induction keys as [|k keys IH]; [constructor|].
  rewrite list_to_set_cons. simpl. intros Hsize.
  destruct (decide (k ∈ keys)) as [Hin|Hnin].
  - pose proof (size_list_to_set_le keys) as Hle.
    assert ({[k]} ∪ list_to_set keys = (list_to_set keys : gset string)) as Heq
      by set_solver.
    rewrite Heq in Hsize. lia.
  - constructor; [done|]. apply IH.
    rewrite size_union, size_singleton in Hsize by set_solver. lia.
Qed.

(** X17: what [__init__] checks.  A wrapper is only built when no key
    occurs twice in or across [always_keys], [reverse_keys] and
    [exclude_keys], the always-pressed and the reversed keys are binary
    keys, the excluded keys are keys of [noop], and the wrapped space
    has no key outside the template; in every other case [__init__]
    raises. *)
Theorem discrete_init_validates spaces ak rk ek en w :
  discrete_init spaces ak rk ek en = Return w →
  NoDup (always_keys w ++ reverse_keys w ++ exclude_keys w)
  ∧ Forall (λ key, key ∈ BINARY_KEYS) (always_keys w ++ reverse_keys w)
  ∧ Forall (λ key, key ∈ (d_noop w).*1) (exclude_keys w)
  ∧ (∀ key, is_Some (spaces !! key) → key ∈ _noop_template.*1).
Proof.
  intros (n1 & acts & -> & -> & -> & _ & Hsize & Hdom & H1 & H2 & Hex & _)
    %discrete_init_inv.
  apply press_keys_spec in H1 as (Hbin1 & _).
  apply press_keys_spec in H2 as (Hbin2 & _).
  split_and!; [|by apply Forall_app|done|].
  - apply size_list_to_set_NoDup.
    rewrite !list_to_set_app_L, !length_app, (assoc_L (∪)). lia.
  - intros key Hkey%elem_of_dom. apply Hdom in Hkey.
    by apply elem_of_list_to_set in Hkey.
Qed.
Lemma discrete_build_prefix spaces ak rk ek n0 keys : ∀ acc acts,
  discrete_build spaces ak rk ek n0 keys acc = Return acts →
  ∃ rest, acts = acc ++ rest.
Proof.
  induction keys as [|key keys IH]; intros acc acts; cbn [discrete_build].
  - intros [= <-]. exists []. by rewrite app_nil_r.
  - destruct (discrete_key_actions spaces ak rk ek n0 key) as [ops|]; [|done].
    cbn [mbind res_bind]. intros [rest ->]%IH.
    exists (ops ++ rest). by rewrite app_assoc.
Qed.

(** X18: what [action] returns.  On a wrapper that [__init__] has built,
    [action] raises [ValueError] exactly for the integers outside
    [0 .. n - 1] and returns one of the discrete actions inside; it
    never raises [IndexError].  Unless [exclude_noop] is set there is at
    least one action, and action 0 is [noop]. *)
Theorem discrete_action_spec spaces ak rk ek en w (a : Z) :
  discrete_init spaces ak rk ek en = Return w →
  (discrete_action w a = Throw ValueError ↔ ¬ (0 ≤ a < d_action_space_n w)%Z)
  ∧ ((0 ≤ a < d_action_space_n w)%Z →
       ∃ d, discrete_action w a = Return d ∧ d ∈ d_actions w)
  ∧ (exclude_noop w = false →
       (0 < d_action_space_n w)%Z ∧ discrete_action w 0 = Return (d_noop w)).
Proof.
  intros (n1 & acts & _ & _ & _ & Hen & _ & _ & _ & _ & _ & Hb & Hacts & Hn)
    %discrete_init_inv.
  unfold discrete_action. rewrite Hn.
  assert (∀ a, (0 ≤ a < Z.of_nat (length (d_actions w)))%Z →
          ∃ d, d_actions w !! Z.to_nat a = Some d) as Hin.
  { intros a' Ha'. apply lookup_lt_is_Some_2. lia. }
  split_and!.
  - case_decide as Ha; [|done]. destruct (Hin a Ha) as [d ->]. split; [done|tauto].
  - intros Ha. rewrite decide_True by done. destruct (Hin a Ha) as [d Hd].
    rewrite Hd. exists d. split; [done|]. by eapply list_elem_of_lookup_2.
  - intros Hfalse.
    apply discrete_build_prefix in Hb as [rest ->].
    rewrite <- Hen, Hfalse in Hacts.
    rewrite Hacts. cbn [app length]. split; [lia|].
    rewrite decide_True by lia. done.
Qed.
End discrete_facts.

(** ** The further statements at concrete inputs *)

Section more_examples.
Import ReplayBuffer Example.

Lemma episode_pushes_sliding_windows_example :
  0 < num_steps (fresh None 2)
  ∧ window (fresh None 2) 0 = []
  ∧ Forall (λ y, is_state_terminal y = false) [x1; x2]
  ∧ is_state_terminal x3 = true
  ∧ ∃ b', run (fresh None 2) (appends 0 ([x1; x2] ++ [x3])) = Ok b'
      ∧ RandomAccessQueue.items (memory b') = [[x1; x2]; [x2; x3]; [x3]].
Proof.
  assert (Forall (λ y, is_state_terminal y = false) [x1; x2]) as Hall
    by (repeat constructor).
  split_and!; [vm_compute; lia|reflexivity|exact Hall|reflexivity|].
  destruct (episode_pushes_sliding_windows (fresh None 2) 0 [x1; x2] x3)
    as (b' & Hrun & Hmem & _); [vm_compute; lia|reflexivity|exact Hall|reflexivity|].
  exists b'. split; [exact Hrun|]. rewrite Hmem. reflexivity.
Defined.

Lemma stopped_episode_pushes_sliding_windows_example :
  0 < num_steps (fresh None 2)
  ∧ window (fresh None 2) 0 = []
  ∧ Forall (λ y, is_state_terminal y = false) [x1; x2]
  ∧ ∃ b', run (fresh None 2) (appends 0 [x1; x2] ++ [Stop 0]) = Ok b'
      ∧ RandomAccessQueue.items (memory b') = [[x1; x2]; [x2]].
Proof.
  assert (Forall (λ y, is_state_terminal y = false) [x1; x2]) as Hall
    by (repeat constructor).
  split_and!; [vm_compute; lia|reflexivity|exact Hall|].
  destruct (stopped_episode_pushes_sliding_windows (fresh None 2) 0 [x1; x2])
    as (b' & Hrun & Hmem & _); [vm_compute; lia|reflexivity|exact Hall|].
  exists b'. split; [exact Hrun|]. rewrite Hmem. reflexivity.
Defined.

Lemma stored_lengths_bounded_example :
  ∃ b,
    init (Some 2) 2 = Ok (fresh (Some 2) 2)
    ∧ run (fresh (Some 2) 2) [Append x1 0; Append x2 0; Append x3 0] = Ok b
    ∧ Forall (λ s, 1 ≤ length s ≤ 2) (RandomAccessQueue.items (memory b)).
Proof.
  eexists. split; [reflexivity|]. split; [vm_compute; reflexivity|].
  eapply (stored_lengths_bounded (Some 2) 2
            [Append x1 0; Append x2 0; Append x3 0] (fresh (Some 2) 2));
    [reflexivity|vm_compute; reflexivity].
Defined.

Lemma stored_terminal_only_last_example :
  ∃ b,
    init None 2 = Ok (fresh None 2)
    ∧ run (fresh None 2) [Append x1 0; Append x2 0; Append x3 0; Append x1 0]
      = Ok b
    ∧ Forall terminal_only_last (RandomAccessQueue.items (memory b))
    ∧ Forall (λ x, is_state_terminal x = false) (window b 0).
Proof.
  eexists. split; [reflexivity|]. split; [vm_compute; reflexivity|].
  split;
    [|apply (proj2 (stored_terminal_only_last None 2
             [Append x1 0; Append x2 0; Append x3 0; Append x1 0]
             (fresh None 2) _ eq_refl eq_refl) 0%Z)].
  eapply (stored_terminal_only_last None 2
            [Append x1 0; Append x2 0; Append x3 0; Append x1 0] (fresh None 2));
    [reflexivity|vm_compute; reflexivity].
Defined.

Lemma stop_after_episode_end_changes_nothing_example :
  ∃ b1 b2,
    stop_current_episode (holding [x1]) 0 = Ok b1
    ∧ stop_current_episode b1 0 = Ok b1
    ∧ is_state_terminal x3 = true
    ∧ append_exp (holding [x1; x2]) x3 0 = Ok b2
    ∧ stop_current_episode b2 0 = Ok b2.
Proof.
  eexists _, _. split; [vm_compute; reflexivity|]. split.
  - eapply (proj1 (stop_after_episode_end_changes_nothing
                     (holding [x1]) 0 x1 _)). vm_compute. reflexivity.
  - split; [reflexivity|]. split; [vm_compute; reflexivity|].
    eapply (proj2 (stop_after_episode_end_changes_nothing
                     (holding [x1; x2]) 0 x3 _)); [reflexivity|].
    vm_compute. reflexivity.
Defined.

Lemma one_step_replay_example :
  num_steps (fresh None 1) = 1
  ∧ length (window (fresh None 1) 0) ≤ 1
  ∧ ∃ b', append_exp (fresh None 1) x1 0 = Ok b'
      ∧ RandomAccessQueue.items (memory b') = [[x1]].
Proof.
  split; [reflexivity|]. split; [vm_compute; lia|].
  destruct (one_step_replay (fresh None 1) x1 0) as (b' & Happ & Hmem & _);
    [reflexivity|vm_compute; lia|].
  exists b'. split; [exact Happ|]. rewrite Hmem. reflexivity.
Defined.

Lemma init_empty_or_refused_example :
  (init_int (Some 5) 0 : result (t nat nat Z Z)) = Raise AssertionError
  ∧ (init_int (Some 5) (-2) : result (t nat nat Z Z)) = Raise AssertionError
  ∧ (0 < 3)%Z
  ∧ ∃ b : t nat nat Z Z, init_int (Some 5) 3 = Ok b ∧ num_steps b = 3
      ∧ len b = 0 ∧ sample [4] b 1 = Raise AssertionError.
Proof.
  split; [apply (init_empty_or_refused (Some 5) 0); lia|].
  split; [apply (init_empty_or_refused (Some 5) (-2)); lia|]. split; [lia|].
  destruct (proj2 (init_empty_or_refused (Obs:=nat) (Act:=nat) (Rew:=Z) (Aux:=Z)
                     (Some 5) 3)) as (b & Hinit & _ & Hn & Hlen & _ & Hsample);
    [lia|].
  exists b. split_and!; [done|lia|done|]. apply Hsample. lia.
Defined.

Lemma load_legacy_deque_example :
  disk (Pickle (PyDeque [[x1]; [x2]] (Some 5))) !! filename
  = Some (Pickle (PyDeque [[x1]; [x2]] (Some 5)))
  ∧ length [[x1]; [x2]] ≤ 5
  ∧ ∃ q, load (fresh None 1) (disk (Pickle (PyDeque [[x1]; [x2]] (Some 5))))
           filename
         = Ok (set_memory (fresh None 1) (PyRandomAccessQueue q))
      ∧ RandomAccessQueue.items q = [[x1]; [x2]]
      ∧ RandomAccessQueue.maxlen q = Some 5.
Proof.
  split; [reflexivity|]. split; [simpl; lia|].
  destruct (load_legacy_deque (fresh None 1)
              (disk (Pickle (PyDeque [[x1]; [x2]] (Some 5)))) filename
              [[x1]; [x2]] (Some 5))
    as (q & Hload & Hitems & Hmax & _); [reflexivity|simpl; lia|].
  by exists q.
Defined.
End more_examples.

Section wrapper_examples.
Import EnvWrappers WrapperExample.

(** Four skipped frames from the start of the counting environment: the
    third step ends the episode, so three steps are made. *)
Lemma frame_skip_step_spec_example :
  (0 < 4)%Z
  ∧ frame_skip_step counter_step 0%Z Z.add 4 0 () = Return (3, (3, 3%Z, true, ()))
  ∧ ∃ m s' rs r,
      1 ≤ m ≤ Z.to_nat 4
      ∧ env_steps counter_step m 0 () = (s', rs)
      ∧ last rs = Some r
      ∧ frame_skip_step counter_step 0%Z Z.add 4 0 ()
        = Return (s', (r.1.1.1, foldl Z.add 0%Z (reward_of <$> rs), done_of r, r.2))
      ∧ Forall (λ r', done_of r' = false) (take (m - 1) rs)
      ∧ (done_of r = false → m = Z.to_nat 4).
Proof.
  split; [lia|]. split; [reflexivity|].
  apply (frame_skip_step_spec counter_step 0%Z Z.add 4 0 ()). lia.
Defined.

Lemma frame_skip_raises_iff_example :
  (0 ≤ 0)%Z
  ∧ frame_skip_step counter_step 0%Z Z.add 0 0 () = Throw UnboundLocalError
  ∧ ∃ v, frame_skip_step counter_step 0%Z Z.add 1 0 () = Return v.
Proof.
  split; [lia|]. split.
  - apply (frame_skip_raises_iff counter_step 0%Z Z.add 0 0 ()). lia.
  - apply (frame_skip_raises_iff counter_step 0%Z Z.add 1 0 ()). lia.
Defined.

(** The wrapper for the combined action space: 3 + 2 + 2 + 1 + 2 + 1
    actions. *)
Lemma serial_init_returns_iff_example :
  ∃ w, serial_init combined_spaces = Return w
    ∧ action_space_n w = 11%Z
    ∧ Z.of_nat (length (_actions w)) = 11%Z.
Proof.
  destruct (proj2 (proj1 (serial_init_returns_iff combined_spaces))) as [w Hw].
  { intros key Hkey Hcam. cbn in Hkey.
    repeat (apply elem_of_cons in Hkey as [->|Hkey];
            [first [done | eexists; reflexivity]|]).
    by apply elem_of_nil in Hkey. }
  exists w.
  destruct (proj2 (serial_init_returns_iff combined_spaces) w Hw)
    as (n1 & n2 & n3 & n4 & n5 & H1 & H2 & H3 & H4 & H5 & Hn & Hlen).
  vm_compute in H1, H2, H3, H4, H5.
  injection H1 as <-. injection H2 as <-. injection H3 as <-.
  injection H4 as <-. injection H5 as <-.
  split; [exact Hw|]. split; [exact Hn|]. rewrite Hlen. exact Hn.
Defined.

Lemma serial_action_spec_example :
  ∃ w, serial_init combined_spaces = Return w
    ∧ serial_action w 11 = Throw ValueError
    ∧ serial_action w (-1) = Throw ValueError
    ∧ serial_action w 0 = Return noop
    ∧ ∃ d, serial_action w 3 = Return d ∧ length (pressed d) = 1.
Proof.
  eexists. split; [vm_compute; reflexivity|].
  match goal with |- serial_action ?w _ = _ ∧ _ => set (w0 := w) end.
  assert (serial_init combined_spaces = Return w0) as Hw
    by (vm_compute; reflexivity).
  split_and!.
  - apply (serial_action_spec combined_spaces w0 11 Hw). vm_compute. intros [_ H].
    discriminate H.
  - apply (serial_action_spec combined_spaces w0 (-1) Hw). vm_compute.
    intros [H _]. by apply H.
  - destruct (serial_action_spec combined_spaces w0 0 Hw) as (_ & _ & Hin).
    destruct Hin as (d & Hd & _ & Hnoop & _); [by vm_compute|].
    by rewrite Hd, Hnoop.
  - destruct (serial_action_spec combined_spaces w0 3 Hw) as (_ & _ & Hin).
    destruct Hin as (d & Hd & _ & _ & Hone); [by vm_compute|].
    exists d. split; [exact Hd|]. apply Hone. lia.
Defined.

Lemma serial_action_injective_example :
  ∃ w d,
    serial_init combined_spaces = Return w
    ∧ serial_action w 5 = Return d
    ∧ ∀ a, serial_action w a = Return d → a = 5%Z.
Proof.
  eexists _, _. split; [vm_compute; reflexivity|].
  split; [vm_compute; reflexivity|].
  intros a Ha.
  eapply (serial_action_injective combined_spaces _ a 5);
    [vm_compute; reflexivity|exact Ha|vm_compute; reflexivity].
Defined.

(** A wrapper that always attacks, runs forward unless told otherwise,
    and never steps back or left. *)
Lemma discrete_fixed_keys_example :
  ∃ w,
    discrete_init treechop_spaces (Some ["attack"]) (Some ["forward"])
      (Some ["back"; "left"]) false = Return w
    ∧ d_action_space_n w = 8%Z
    ∧ ∀ d, d ∈ d_actions w →
        od_get d "attack" = Some (Int 1) ∧ od_get d "back" = Some (Int 0).
Proof.
  eexists. split; [vm_compute; reflexivity|]. split; [reflexivity|].
  intros d Hd. split.
  - eapply (discrete_fixed_keys treechop_spaces (Some ["attack"])
              (Some ["forward"]) (Some ["back"; "left"]) false _ d "attack");
      [vm_compute; reflexivity|exact Hd|].
    apply list_elem_of_here.
  - erewrite (proj1 (proj2 (discrete_fixed_keys treechop_spaces (Some ["attack"])
              (Some ["forward"]) (Some ["back"; "left"]) false _ d "back"
              _ Hd))); [reflexivity|].
    apply list_elem_of_here.
  Unshelve. vm_compute. reflexivity.
Defined.

Lemma discrete_init_validates_example :
  ∃ w,
    discrete_init treechop_spaces (Some ["attack"]) (Some ["forward"])
      (Some ["back"; "left"]) false = Return w
    ∧ NoDup (always_keys w ++ reverse_keys w ++ exclude_keys w)
    ∧ discrete_init treechop_spaces (Some ["attack"]) (Some ["attack"]) None false
      = Throw ValueError
    ∧ discrete_init treechop_spaces (Some ["camera"]) None None false
      = Throw ValueError.
Proof.
  eexists. split; [vm_compute; reflexivity|]. split; [|split; reflexivity].
  eapply (discrete_init_validates treechop_spaces (Some ["attack"])
            (Some ["forward"]) (Some ["back"; "left"]) false).
  vm_compute. reflexivity.
Defined.

Lemma discrete_action_spec_example :
  ∃ w,
    discrete_init treechop_spaces (Some ["attack"]) (Some ["forward"])
      (Some ["back"; "left"]) false = Return w
    ∧ discrete_action w 8 = Throw ValueError
    ∧ discrete_action w 0 = Return (d_noop w)
    ∧ od_get (d_noop w) "forward" = Some (Int 1).
Proof.
  eexists. split; [vm_compute; reflexivity|].
  match goal with |- discrete_action ?w _ = _ ∧ _ => set (w0 := w) end.
  assert (discrete_init treechop_spaces (Some ["attack"]) (Some ["forward"])
            (Some ["back"; "left"]) false = Return w0) as Hw
    by (vm_compute; reflexivity).
  split_and!.
  - apply (discrete_action_spec _ _ _ _ _ w0 8 Hw). vm_compute. intros [_ H].
    discriminate H.
  - by apply (discrete_action_spec _ _ _ _ _ w0 0 Hw).
  - reflexivity.
Defined.
End wrapper_examples.

(** ** [CombineActionWrapper] *)

Section combine_facts.
Import EnvWrappers.
#[local] Set Warnings "-clear-no-such-hyp".
Implicit Types (spaces : gmap string space) (w : combine) (d a act : odict)
  (k key : string) (g keys : list string) (v : value).

Lemma od_get_None d k : od_get d k = None ↔ k ∉ d.*1.
Proof.
  induction d as [|[k0 v0] d IH]; cbn [od_get].
  - split; [intros _ ?%elem_of_nil; done|done].
  - rewrite fmap_cons, not_elem_of_cons. simpl. case_decide; [|naive_solver].
    split; [done|]. intros [? _]. congruence.
Qed.

Lemma od_get_Some_elem d k v : od_get d k = Some v → k ∈ d.*1.
Proof.
  intros H. destruct (decide (k ∈ d.*1)) as [|Hn]; [done|].
  apply od_get_None in Hn. congruence.
Qed.

Lemma od_set_keys_new d k v : k ∉ d.*1 → (od_set d k v).*1 = d.*1 ++ [k].
Proof.
  induction d as [|[k0 v0] d IH]; intros Hk; [done|].
  rewrite fmap_cons in Hk. apply not_elem_of_cons in Hk as [Hne Hk]. simpl in Hne.
  cbn [od_set]. rewrite decide_False by done. rewrite !fmap_cons. simpl.
  by rewrite IH.
Qed.

Lemma od_set_NoDup d k v : NoDup d.*1 → NoDup (od_set d k v).*1.
Proof.
  intros Hd. destruct (decide (k ∈ d.*1)).
  - by rewrite od_set_keys.
  - rewrite od_set_keys_new by done. apply NoDup_app. split_and!; [done| |].
    + intros x Hx ->%list_elem_of_singleton. done.
    + apply NoDup_singleton.
Qed.

Lemma od_get_update d a k :
  NoDup a.*1 →
  od_get (od_update d a) k
  = match od_get a k with Some v => Some v | None => od_get d k end.
Proof.
  revert d. induction a as [|[k0 v0] a IH]; intros d Ha; [done|].
  rewrite fmap_cons in Ha. apply NoDup_cons in Ha as [Hk0 Ha].
  unfold od_update in *. cbn [foldl od_get fst snd]. rewrite IH by done.
  rewrite od_get_set. simpl in Hk0. case_decide as Hk; [subst|done].
  apply od_get_None in Hk0. by rewrite Hk0.
Qed.

(** The [noop] of a group: its keys are valid keys of the group, none
    twice, and all are at rest. *)
Lemma group_noop_spec keys : ∀ d0,
  NoDup d0.*1 → (∀ k, at_rest d0 k) →
  let noop := foldl (λ acc key', od_set acc key' (Int 0)) d0 keys in
  NoDup noop.*1
  ∧ (∀ k, at_rest noop k)
  ∧ (∀ k, k ∈ noop.*1 ↔ k ∈ d0.*1 ∨ k ∈ keys).
Proof.
  induction keys as [|key keys IH]; intros d0 Hnd Hrest; cbn [foldl].
  - split_and!; [done..|]. intros k. rewrite elem_of_nil. tauto.
  - destruct (IH (od_set d0 key (Int 0))) as (H1 & H2 & H3).
    + by apply od_set_NoDup.
    + intros k. unfold at_rest. rewrite od_get_set.
      case_decide; [by right|apply Hrest].
    + split_and!; [done..|]. intros k. rewrite H3, elem_of_cons.
      destruct (decide (key ∈ d0.*1)).
      * rewrite od_set_keys by done. naive_solver.
      * rewrite od_set_keys_new, elem_of_app, list_elem_of_singleton by done.
        naive_solver.
Qed.

Lemma exclusive_action_od_set noop key v :
  key ∈ noop.*1 → (∀ k, at_rest noop k) →
  exclusive_action noop.*1 (od_set noop key v).
Proof.
  intros Hkey Hrest. split; [by apply od_set_keys|].
  intros k1 k2 Hne. unfold at_rest. rewrite !od_get_set.
  destruct (decide (key = k1)) as [->|]; [|left; apply Hrest].
  rewrite decide_False by done. right. apply Hrest.
Qed.

Lemma combine_loop_spec spaces noop keys : ∀ acc acts,
  (∀ k, k ∈ keys → k ∈ noop.*1) → (∀ k, at_rest noop k) →
  combine_loop spaces noop keys acc = Return acts →
  Forall (exclusive_action noop.*1) acc →
  Forall (exclusive_action noop.*1) acts.
Proof.
  induction keys as [|key keys IH]; intros acc acts Hkeys Hrest;
    cbn [combine_loop].
  - by intros [= <-].
  - destruct (spaces !! key) as [[n|]|]; [|done..]. intros Hloop Hacc.
    eapply IH; [|done|exact Hloop|].
    + intros k Hk. apply Hkeys. by right.
    + apply Forall_app. split; [done|].
      apply Forall_fmap, Forall_forall. intros i _. simpl.
      apply exclusive_action_od_set; [|done]. apply Hkeys. by left.
Qed.

Lemma combine_loop_prefix spaces noop keys : ∀ (acc acts : list odict),
  combine_loop spaces noop keys acc = Return acts → length acc ≤ length acts.
Proof.
  induction keys as [|key keys IH]; intros acc acts; cbn [combine_loop].
  - by intros [= <-].
  - destruct (spaces !! key) as [[n|]|]; [|done..]. intros Hl%IH.
    rewrite length_app in Hl. lia.
Qed.

Lemma combine_exclusive_actions_nonempty spaces g nk (acts : list odict) :
  combine_exclusive_actions spaces g = Return (nk, acts) → 0 < length acts.
Proof.
  unfold combine_exclusive_actions.
  destruct (combine_loop _ _ _ _) as [acts'|] eqn:Hloop; [|done].
  cbn [mbind res_bind mret res_ret]. intros [= _ <-].
  apply combine_loop_prefix in Hloop. simpl in Hloop. lia.
Qed.
Lemma combine_exclusive_actions_spec spaces g nk acts :
  combine_exclusive_actions spaces g = Return (nk, acts) →
  nk = String.concat "_" g ∧ group_actions g acts.
Proof.
  unfold combine_exclusive_actions.
  set (valid := filter _ g). set (noop := foldl _ _ valid).
  destruct (group_noop_spec valid []) as (Hnd & Hrest & Hkeys);
    [constructor|by left|]. fold noop in Hnd, Hrest, Hkeys.
  destruct (combine_loop spaces noop valid [noop]) as [acts'|] eqn:Hloop;
    [|done]. cbn [mbind res_bind mret res_ret]. intros [= <- <-].
  split; [done|]. split.
  { apply combine_loop_prefix in Hloop. simpl in Hloop. lia. }
  exists noop.*1. split_and!; [done| |].
  - intros k [Hk|Hk]%Hkeys; [by apply elem_of_nil in Hk|].
    unfold valid in Hk. by apply list_elem_of_filter in Hk as [_ Hk].
  - eapply combine_loop_spec; [|done|exact Hloop|].
    + intros k Hk. apply Hkeys. by right.
    + apply Forall_singleton. split; [done|]. intros k1 k2 _. left. apply Hrest.
Qed.

Lemma combine_maps_inv spaces maps :
  combine_maps spaces exclusive_keys ∅ = Return maps →
  ∃ a1 a2 a3 a4 : list odict,
    maps = maps_of a1 a2 a3 a4
    ∧ group_actions ["forward"; "back"] a1
    ∧ group_actions ["left"; "right"] a2
    ∧ group_actions ["sneak"; "sprint"] a3
    ∧ group_actions
        ["attack"; "place"; "equip"; "craft"; "nearbyCraft"; "nearbySmelt"] a4.
Proof.
  unfold exclusive_keys. cbn [combine_maps].
  destruct (combine_exclusive_actions spaces ["forward"; "back"])
    as [[k1 a1]|] eqn:E1; [|done].
  apply combine_exclusive_actions_spec in E1 as [-> G1].
  cbn [mbind res_bind fst snd].
  destruct (combine_exclusive_actions spaces ["left"; "right"])
    as [[k2 a2]|] eqn:E2; [|done].
  apply combine_exclusive_actions_spec in E2 as [-> G2].
  cbn [mbind res_bind fst snd].
  destruct (combine_exclusive_actions spaces ["sneak"; "sprint"])
    as [[k3 a3]|] eqn:E3; [|done].
  apply combine_exclusive_actions_spec in E3 as [-> G3].
  cbn [mbind res_bind fst snd].
  destruct (combine_exclusive_actions spaces
              ["attack"; "place"; "equip"; "craft"; "nearbyCraft"; "nearbySmelt"])
    as [[k4 a4]|] eqn:E4; [|done].
  apply combine_exclusive_actions_spec in E4 as [-> G4].
  cbn [mbind res_bind fst snd]. intros [= <-].
  by exists a1, a2, a3, a4.
Qed.
Lemma od_get_elem d k v : NoDup d.*1 → (k, v) ∈ d → od_get d k = Some v.
Proof.
  induction d as [|[k0 v0] d IH]; intros Hnd Hin; [by apply elem_of_nil in Hin|].
  rewrite fmap_cons in Hnd. apply NoDup_cons in Hnd as [Hk0 Hnd]. simpl in Hk0.
  cbn [od_get]. apply elem_of_cons in Hin as [[= -> ->]|Hin].
  - by rewrite decide_True.
  - rewrite decide_False; [by apply IH|]. intros ->. apply Hk0.
    by apply (list_elem_of_fmap_2 fst) in Hin.
Qed.

(** [Dict.contains]: the dictionary has the keys of the space, once
    each, and a value of the right space under every key. *)
Lemma dict_contains_spec box_contains (sp : list (string * space)) (x : odict) :
  NoDup sp.*1 →
  dict_contains box_contains sp x = true →
  NoDup x.*1
  ∧ (∀ k, k ∈ x.*1 ↔ k ∈ sp.*1)
  ∧ ∀ k s, (k, s) ∈ sp →
      ∃ v, od_get x k = Some v ∧ space_contains box_contains s v = true.
Proof.
  intros Hnd. unfold dict_contains. intros [Hlen Hall]%andb_true_iff.
  apply bool_decide_eq_true in Hlen.
  apply Is_true_true, forallb_True in Hall. rewrite Forall_forall in Hall.
  assert (∀ k s, (k, s) ∈ sp →
          ∃ v, od_get x k = Some v ∧ space_contains box_contains s v = true)
    as Hsp.
  { intros k s Hks. specialize (Hall _ Hks). simpl in Hall.
    destruct (od_get x k) as [v|]; [|done]. exists v. split; [done|].
    by apply Is_true_true. }
  assert (sp.*1 ≡ₚ x.*1) as Hperm.
  { apply submseteq_length_Permutation; [|rewrite !length_fmap; lia].
    apply NoDup_submseteq; [done|]. intros k ((k' & s) & -> & Hks)%list_elem_of_fmap.
    destruct (Hsp _ _ Hks) as (v & Hv & _). by eapply od_get_Some_elem. }
  split_and!; [by rewrite <- Hperm| |done].
  intros k. by rewrite Hperm.
Qed.

Lemma group_state_update_same g (acts : list odict) d act :
  group_actions g acts → act ∈ acts →
  group_state g acts d → group_state g acts (od_update d act).
Proof.
  intros (_ & ks & Hnd & Hks & Hall) Hact Hst. rewrite Forall_forall in Hall.
  destruct (Hall _ Hact) as [Hkeys _].
  right. exists act. split; [done|]. intros k Hk.
  rewrite od_get_update by by rewrite Hkeys.
  destruct (od_get act k) as [v|] eqn:Hget; [done|].
  destruct Hst as [Hnone|(act' & Hact' & Hsame)]; [by apply Hnone|].
  rewrite Hsame by done. destruct (Hall _ Hact') as [Hkeys' _].
  apply od_get_None. rewrite Hkeys', <- Hkeys. by apply od_get_None.
Qed.

Lemma group_state_update_other g (acts : list odict) d g' (acts' : list odict) act' :
  group_actions g' acts' → act' ∈ acts' →
  (∀ k, k ∈ g → k ∉ g') →
  group_state g acts d → group_state g acts (od_update d act').
Proof.
  intros (_ & ks & Hnd & Hks & Hall) Hact Hdisj Hst. rewrite Forall_forall in Hall.
  destruct (Hall _ Hact) as [Hkeys _].
  assert (∀ k, k ∈ g → od_get (od_update d act') k = od_get d k) as Hsame.
  { intros k Hk. rewrite od_get_update by by rewrite Hkeys.
    assert (od_get act' k = None) as ->; [|done].
    apply od_get_None. rewrite Hkeys. intros Hin%Hks. by eapply Hdisj. }
  destruct Hst as [Hnone|(act & Hin & Heq)]; [left|right; exists act; split; [done|]];
    intros k Hk; rewrite Hsame by done; auto.
Qed.

Lemma group_state_set_other g (acts : list odict) d k0 v :
  k0 ∉ g → group_state g acts d → group_state g acts (od_set d k0 v).
Proof.
  intros Hk0 Hst.
  assert (∀ k, k ∈ g → od_get (od_set d k0 v) k = od_get d k) as Hsame.
  { intros k Hk. rewrite od_get_set. rewrite decide_False; [done|].
    by intros ->. }
  destruct Hst as [Hnone|(act & Hin & Heq)]; [left|right; exists act; split; [done|]];
    intros k Hk; rewrite Hsame by done; auto.
Qed.

Lemma group_state_exclusive g (acts : list odict) d k1 k2 :
  group_actions g acts → group_state g acts d →
  k1 ∈ g → k2 ∈ g → k1 ≠ k2 → at_rest d k1 ∨ at_rest d k2.
Proof.
  intros (_ & ks & Hnd & Hks & Hall) Hst H1 H2 Hne. rewrite Forall_forall in Hall.
  destruct Hst as [Hnone|(act & Hin & Heq)].
  - left. left. by apply Hnone.
  - destruct (Hall _ Hin) as [_ Hex]. unfold at_rest.
    rewrite !Heq by done. by apply Hex.
Qed.
Lemma maps_of_lookup (a1 a2 a3 a4 : list odict) k :
  maps_of a1 a2 a3 a4 !! k
  = if decide (k = "attack_place_equip_craft_nearbyCraft_nearbySmelt")
    then Some a4
    else if decide (k = "sneak_sprint") then Some a3
    else if decide (k = "left_right") then Some a2
    else if decide (k = "forward_back") then Some a1
    else None.
Proof.
  unfold maps_of. rewrite !lookup_insert, lookup_empty.
  repeat case_decide; congruence.
Qed.

Lemma combine_init_inv spaces w :
  combine_init spaces = Return w →
  ∃ (a1 a2 a3 a4 : list odict) jump camera,
    c_maps w = maps_of a1 a2 a3 a4
    ∧ c_action_space w
      = [ ("forward_back", Discrete (Z.of_nat (length a1)));
          ("left_right", Discrete (Z.of_nat (length a2)));
          ("jump", jump);
          ("sneak_sprint", Discrete (Z.of_nat (length a3)));
          ("camera", camera);
          ("attack_place_equip_craft_nearbyCraft_nearbySmelt",
           Discrete (Z.of_nat (length a4))) ]
    ∧ spaces !! "jump" = Some jump
    ∧ spaces !! "camera" = Some camera
    ∧ group_actions ["forward"; "back"] a1
    ∧ group_actions ["left"; "right"] a2
    ∧ group_actions ["sneak"; "sprint"] a3
    ∧ group_actions
        ["attack"; "place"; "equip"; "craft"; "nearbyCraft"; "nearbySmelt"] a4.
Proof.
  unfold combine_init.
  destruct (combine_maps spaces exclusive_keys ∅) as [maps|] eqn:Hmaps; [|done].
  apply combine_maps_inv in Hmaps
    as (a1 & a2 & a3 & a4 & -> & G1 & G2 & G3 & G4).
  cbn [mbind res_bind]. unfold discrete_of, space_of.
  rewrite !maps_of_lookup.
  repeat match goal with
         | |- context [decide (?a = ?b)] =>
             first [rewrite (decide_True (P:=a = b)) by done
                   |rewrite (decide_False (P:=a = b)) by done]
         end.
  cbn [mbind res_bind].
  destruct (spaces !! "jump") as [jump|] eqn:Hjump; [|done].
  cbn [mbind res_bind].
  destruct (spaces !! "camera") as [camera|] eqn:Hcam; [|done].
  cbn [mbind res_bind mret res_ret]. intros [= <-].
  by exists a1, a2, a3, a4, jump, camera.
Qed.

Lemma py_index_in_range {A} (l : list A) (z : Z) :
  (0 ≤ z < Z.of_nat (length l))%Z → ∃ x, py_index l z = Some x ∧ x ∈ l.
Proof.
  intros Hz. unfold py_index. rewrite decide_True by lia.
  destruct (lookup_lt_is_Some_2 l (Z.to_nat z)) as [x Hx]; [lia|].
  exists x. split; [done|]. by eapply list_elem_of_lookup_2.
Qed.

(** The loop of [action] on a dictionary that the action space
    contains: it returns, and every group is filled from one of its
    actions. *)
Lemma combine_items_spec (a1 a2 a3 a4 : list odict) :
  group_actions ["forward"; "back"] a1 →
  group_actions ["left"; "right"] a2 →
  group_actions ["sneak"; "sprint"] a3 →
  group_actions
    ["attack"; "place"; "equip"; "craft"; "nearbyCraft"; "nearbySmelt"] a4 →
  ∀ (items : odict) d0,
    (∀ k v, (k, v) ∈ items →
       k ∈ [ "forward_back"; "left_right"; "jump"; "sneak_sprint"; "camera";
             "attack_place_equip_craft_nearbyCraft_nearbySmelt" ]) →
    (∀ k v (acts : list odict), (k, v) ∈ items →
       maps_of a1 a2 a3 a4 !! k = Some acts →
       ∃ z, v = Int z ∧ (0 ≤ z < Z.of_nat (length acts))%Z) →
    groups_state a1 a2 a3 a4 d0 →
    ∃ d, combine_items (maps_of a1 a2 a3 a4) items d0 = Return d
      ∧ groups_state a1 a2 a3 a4 d.
Proof.
  intros G1 G2 G3 G4 items.
  induction items as [|[k v] items IH]; intros d0 Hkeys Hvals Hst.
  - by exists d0.
  - cbn [combine_items].
    assert (∀ d1, groups_state a1 a2 a3 a4 d1 →
            ∃ d, combine_items (maps_of a1 a2 a3 a4) items d1 = Return d
              ∧ groups_state a1 a2 a3 a4 d) as Hnext.
    { intros d1 Hd1. apply IH; [| |done].
      - intros k' v' Hin. eapply Hkeys. by right.
      - intros k' v' acts Hin. eapply Hvals. by right. }
    destruct (maps_of a1 a2 a3 a4 !! k) as [acts|] eqn:Hk.
    + destruct (Hvals k v acts) as (z & -> & Hz); [by left|done|].
      destruct (py_index_in_range acts z Hz) as (act & -> & Hact).
      apply Hnext. rewrite maps_of_lookup in Hk.
      destruct Hst as (S1 & S2 & S3 & S4).
      repeat case_decide; try done; injection Hk as <-; split_and!;
        first [ by eapply group_state_update_same
              | eapply group_state_update_other; [|done| |done];
                [done|intros k' Hk' Hk''; set_unfold; naive_solver] ].
    + apply Hnext. rewrite maps_of_lookup in Hk.
      specialize (Hkeys k v ltac:(by left)).
      destruct Hst as (S1 & S2 & S3 & S4).
      repeat case_decide; try done.
      split_and!; (apply group_state_set_other; [|done]);
        set_unfold; naive_solver.
Qed.
Lemma space_contains_discrete box_contains n v :
  space_contains box_contains (Discrete n) v = true →
  ∃ z, v = Int z ∧ (0 ≤ z < n)%Z.
Proof.
  destruct v as [z|]; simpl; [|done]. intros H%bool_decide_eq_true. by exists z.
Qed.

Lemma combine_action_returns box_contains spaces w (x : odict) :
  combine_init spaces = Return w →
  dict_contains box_contains (c_action_space w) x = true →
  ∃ (a1 a2 a3 a4 : list odict) d,
    group_actions ["forward"; "back"] a1
    ∧ group_actions ["left"; "right"] a2
    ∧ group_actions ["sneak"; "sprint"] a3
    ∧ group_actions
        ["attack"; "place"; "equip"; "craft"; "nearbyCraft"; "nearbySmelt"] a4
    ∧ combine_action box_contains w x = Return d
    ∧ groups_state a1 a2 a3 a4 d.
Proof.
  intros (a1 & a2 & a3 & a4 & jump & camera & Hmaps & Hsp & _ & _
          & G1 & G2 & G3 & G4)%combine_init_inv Hcontains.
  unfold combine_action. rewrite Hcontains, Hmaps.
  rewrite Hsp in Hcontains.
  apply dict_contains_spec in Hcontains as (Hnd & Hkeys & Hvals);
    [|cbn; repeat (apply NoDup_cons; split; [set_unfold; naive_solver|]);
      apply NoDup_nil_2].
  destruct (combine_items_spec a1 a2 a3 a4 G1 G2 G3 G4 x []) as (d & Hd & Hst).
  - intros k v Hin. apply (list_elem_of_fmap_2 fst) in Hin.
    by apply Hkeys in Hin.
  - intros k v acts Hin Hk. rewrite maps_of_lookup in Hk.
    pose proof (od_get_elem x k v Hnd Hin) as Hget.
    repeat case_decide; try done; injection Hk as <-; subst k;
      match goal with
      | |- ∃ z, _ ∧ (_ ≤ _ < Z.of_nat (length ?a))%Z =>
          destruct (Hvals _ (Discrete (Z.of_nat (length a)))
                      ltac:(repeat first [apply list_elem_of_here
                                         |apply list_elem_of_further]))
            as (v' & Hv' & Hc)
      end;
      rewrite Hget in Hv'; injection Hv' as <-;
      by apply space_contains_discrete in Hc.
  - repeat split; by left.
  - by exists a1, a2, a3, a4, d.
Qed.

(** X19: the combined keys exclude each other.  In every action that
    [CombineActionWrapper.action] returns, of two different keys of one
    group (forward/back, left/right, sneak/sprint, and attack, place,
    equip, craft, nearbyCraft, nearbySmelt) at most one is pressed: the
    other is absent or 0. *)
Theorem combine_action_exclusive box_contains spaces w (x : odict) d g k1 k2 :
  combine_init spaces = Return w →
  combine_action box_contains w x = Return d →
  g ∈ exclusive_keys → k1 ∈ g → k2 ∈ g → k1 ≠ k2 →
  at_rest d k1 ∨ at_rest d k2.
Proof.
  intros Hinit Hact Hg H1 H2 Hne.
  destruct (dict_contains box_contains (c_action_space w) x) eqn:Hc;
    [|unfold combine_action in Hact; by rewrite Hc in Hact].
  destruct (combine_action_returns box_contains spaces w x Hinit Hc)
    as (a1 & a2 & a3 & a4 & d' & G1 & G2 & G3 & G4 & Hd' & S1 & S2 & S3 & S4).
  rewrite Hd' in Hact. injection Hact as ->.
  unfold exclusive_keys in Hg.
  apply elem_of_cons in Hg as [->|Hg];
    [exact (group_state_exclusive _ a1 d k1 k2 G1 S1 H1 H2 Hne)|].
  apply elem_of_cons in Hg as [->|Hg];
    [exact (group_state_exclusive _ a2 d k1 k2 G2 S2 H1 H2 Hne)|].
  apply elem_of_cons in Hg as [->|Hg];
    [exact (group_state_exclusive _ a3 d k1 k2 G3 S3 H1 H2 Hne)|].
  apply elem_of_cons in Hg as [->|Hg];
    [exact (group_state_exclusive _ a4 d k1 k2 G4 S4 H1 H2 Hne)|].
  by apply elem_of_nil in Hg.
Qed.

(** X20: what [CombineActionWrapper.action] raises.  On a wrapper that
    [__init__] has built, [action] raises [ValueError] exactly when the
    action space does not contain the dictionary; on every dictionary
    the space contains it returns: no index is out of range and no
    value of a combined key is a non-integer. *)
Theorem combine_action_raises_iff box_contains spaces w (x : odict) :
  combine_init spaces = Return w →
  (combine_action box_contains w x = Throw ValueError
     ↔ dict_contains box_contains (c_action_space w) x = false)
  ∧ (dict_contains box_contains (c_action_space w) x = true →
       ∃ d, combine_action box_contains w x = Return d).
Proof.
  intros Hinit.
  assert (dict_contains box_contains (c_action_space w) x = true →
          ∃ d, combine_action box_contains w x = Return d) as Hret.
  { intros Hc.
    destruct (combine_action_returns box_contains spaces w x Hinit Hc)
      as (a1 & a2 & a3 & a4 & d & _ & _ & _ & _ & Hd & _).
    by exists d. }
  split; [|done]. split.
  - intros Hraise.
    destruct (dict_contains box_contains (c_action_space w) x) eqn:Hc; [|done].
    destruct (Hret eq_refl) as [d Hd]. by rewrite Hd in Hraise.
  - intros Hc. unfold combine_action. by rewrite Hc.
Qed.
End combine_facts.

(** ** [SerialDiscreteCombineActionWrapper] over [CombineActionWrapper] *)

Section pipeline_facts.
Import EnvWrappers.
#[local] Set Warnings "-clear-no-such-hyp".
Implicit Types (spaces : gmap string space) (d : odict).

Ltac decide_strings :=
  repeat match goal with
         | |- context [decide (?a = ?b)] =>
             first [rewrite (decide_True (P:=a = b)) by done
                   |rewrite (decide_False (P:=a = b)) by done]
         end.

Lemma combined_space_lookup (s1 s2 s3 s4 s5 s6 : space) k :
  (list_to_map
     [ ("forward_back", s1); ("left_right", s2); ("jump", s3);
       ("sneak_sprint", s4); ("camera", s5);
       ("attack_place_equip_craft_nearbyCraft_nearbySmelt", s6) ]
   : gmap string space) !! k
  = if decide (k = "forward_back") then Some s1
    else if decide (k = "left_right") then Some s2
    else if decide (k = "jump") then Some s3
    else if decide (k = "sneak_sprint") then Some s4
    else if decide (k = "camera") then Some s5
    else if decide (k = "attack_place_equip_craft_nearbyCraft_nearbySmelt")
         then Some s6
    else None.
Proof.
  cbn [list_to_map foldr fst snd]. rewrite !lookup_insert, lookup_empty.
  repeat case_decide; congruence.
Qed.

(** Every action of the serial wrapper is a dictionary of the combined
    action space, when every discrete key has a value and the camera
    space contains the three camera arrays. *)
Lemma serial_actions_contained box_contains (n1 n2 n3 n4 n5 : Z) (camera : space) :
  (0 < n1)%Z → (0 < n2)%Z → (0 < n3)%Z → (0 < n4)%Z → (0 < n5)%Z →
  (∀ y, y ∈ [0; -10; 10]%Z → space_contains box_contains camera (Camera 0 y) = true) →
  Forall (λ d, dict_contains box_contains
                 [ ("forward_back", Discrete n1);
                   ("left_right", Discrete n2);
                   ("jump", Discrete n3);
                   ("sneak_sprint", Discrete n4);
                   ("camera", camera);
                   ("attack_place_equip_craft_nearbyCraft_nearbySmelt",
                    Discrete n5) ] d = true)
    (serial_actions n1 n2 n3 n4 n5).
Proof.
  intros H1 H2 H3 H4 H5 Hcam.
  pose proof (Hcam 0%Z ltac:(set_solver)) as Hc0.
  pose proof (Hcam (-10)%Z ltac:(set_solver)) as Hc1.
  pose proof (Hcam 10%Z ltac:(set_solver)) as Hc2.
  unfold serial_actions, one_key.
  repeat (apply Forall_app; split);
    repeat (apply Forall_cons; split); try (by constructor);
    try (apply Forall_fmap, Forall_forall; intros a Ha%elem_of_seqZ;
         unfold compose; cbn beta);
    unfold dict_contains, noop; cbn [od_set]; decide_strings;
    cbn [forallb length fst snd od_get]; decide_strings;
    cbn [space_contains];
    rewrite ?Hc0, ?Hc1, ?Hc2;
    rewrite ?bool_decide_eq_true_2 by (done || lia); done.
Qed.
(** X21: the two action wrappers compose.  With [CombineActionWrapper]
    built over an action space whose jump key is a [Discrete] space with
    at least one value and whose camera is a [Box] containing the three
    camera arrays [[0, 0]], [[0, -10]] and [[0, 10]], every action that
    [SerialDiscreteCombineActionWrapper.action] returns is accepted by
    [CombineActionWrapper.action]: it returns and does not raise. *)
Theorem serial_action_accepted box_contains spaces wc ws (a n : Z) d :
  combine_init spaces = Return wc →
  serial_init (list_to_map (c_action_space wc)) = Return ws →
  spaces !! "jump" = Some (Discrete n) → (0 < n)%Z →
  spaces !! "camera" = Some Box →
  (∀ y, y ∈ [0; -10; 10]%Z → box_contains (Camera 0 y) = true) →
  serial_action ws a = Return d →
  ∃ d', combine_action box_contains wc d = Return d'.
Proof.
  intros Hc Hs Hjump Hn Hcamera Hbox Hact.
  destruct (combine_init_inv _ _ Hc)
    as (a1 & a2 & a3 & a4 & jump & camera & _ & Hsp & Hj & Hcam
          & [G1 _] & [G2 _] & [G3 _] & [G4 _]).
  rewrite Hjump in Hj. rewrite Hcamera in Hcam. simplify_eq.
  rewrite Hsp in Hs.
  apply serial_init_inv in Hs as (n1 & n2 & n3 & n4 & n5 & E1 & E2 & E3 & E4 & E5 & ->).
  rewrite combined_space_lookup in E1, E2, E3, E4, E5.
  repeat (case_decide; try done). simplify_eq.
  unfold serial_action in Hact. cbn [action_space_n _actions] in Hact.
  case_decide; [|done].
  destruct (_ !! Z.to_nat a) as [d0|] eqn:Hlook; [|done].
  injection Hact as ->. apply list_elem_of_lookup_2 in Hlook.
  pose proof (serial_actions_contained box_contains
                (Z.of_nat (length a1)) (Z.of_nat (length a2)) n3
                (Z.of_nat (length a3)) (Z.of_nat (length a4)) Box) as Hall.
  specialize (Hall ltac:(lia) ltac:(lia) Hn ltac:(lia) ltac:(lia) Hbox).
  rewrite Forall_forall in Hall. apply Hall in Hlook.
  rewrite <- Hsp in Hlook.
  destruct (combine_action_returns _ _ _ _ Hc Hlook)
    as (? & ? & ? & ? & d' & _ & _ & _ & _ & Hret & _).
  by exists d'.
Qed.
End pipeline_facts.

Section combine_examples.
Import EnvWrappers WrapperExample.

(** Forward, right, jump, a camera turn and attack, in the tree-chopping
    environment. *)
Lemma combine_action_exclusive_example :
  ∃ w d,
    combine_init treechop_spaces = Return w
    ∧ combine_action (λ _, true) w
        [ ("forward_back", Int 1); ("left_right", Int 2); ("jump", Int 1);
          ("sneak_sprint", Int 0); ("camera", Camera 0 10);
          ("attack_place_equip_craft_nearbyCraft_nearbySmelt", Int 1) ]
      = Return d
    ∧ od_get d "forward" = Some (Int 1)
    ∧ (at_rest d "forward" ∨ at_rest d "back").
Proof.
  eexists _, _. split; [vm_compute; reflexivity|].
  split; [vm_compute; reflexivity|]. split; [reflexivity|].
  eapply (combine_action_exclusive (λ _, true) treechop_spaces _
            [ ("forward_back", Int 1); ("left_right", Int 2); ("jump", Int 1);
              ("sneak_sprint", Int 0); ("camera", Camera 0 10);
              ("attack_place_equip_craft_nearbyCraft_nearbySmelt", Int 1) ]
            _ ["forward"; "back"] "forward" "back");
    [vm_compute; reflexivity|vm_compute; reflexivity
    |apply list_elem_of_here|apply list_elem_of_here
    |apply list_elem_of_further, list_elem_of_here|done].
Defined.

Lemma combine_action_raises_iff_example :
  ∃ w,
    combine_init treechop_spaces = Return w
    ∧ combine_action (λ _, true) w (od_set noop "forward_back" (Int 3))
      = Throw ValueError
    ∧ ∃ d, combine_action (λ _, true) w (od_set noop "forward_back" (Int 2))
           = Return d.
Proof.
  eexists. split; [vm_compute; reflexivity|].
  match goal with |- combine_action _ ?w _ = _ ∧ _ => set (w0 := w) end.
  assert (combine_init treechop_spaces = Return w0) as Hw
    by (vm_compute; reflexivity).
  split.
  - apply (combine_action_raises_iff (λ _, true) treechop_spaces w0 _ Hw).
    reflexivity.
  - apply (combine_action_raises_iff (λ _, true) treechop_spaces w0 _ Hw).
    reflexivity.
Defined.

(** The second discrete action, forward, through both wrappers. *)
Lemma serial_action_accepted_example :
  ∃ wc ws d,
    combine_init treechop_spaces = Return wc
    ∧ serial_init (list_to_map (c_action_space wc)) = Return ws
    ∧ serial_action ws 1 = Return d
    ∧ ∃ d', combine_action (λ _, true) wc d = Return d'.
Proof.
  eexists _, _, _. split; [vm_compute; reflexivity|].
  split; [vm_compute; reflexivity|]. split; [vm_compute; reflexivity|].
  eapply (serial_action_accepted (λ _, true) treechop_spaces _ _ 1 2);
    [vm_compute; reflexivity|vm_compute; reflexivity|reflexivity|lia
    |reflexivity|done|vm_compute; reflexivity].
Defined.
End combine_examples.
